(** * Shallow embedding of the waku-bindings completion bridge and node lifecycle

    Rust strings are modelled as Rocq [string]s holding their UTF-8 bytes,
    Rust integers as [Z] with their wrap-around written out, a panic as the
    [Panic] outcome, and Rust's [Result] as [result]. *)

From Stdlib Require Import ZArith List Lia Bool.
From Stdlib Require Import Strings.String Strings.Ascii Strings.Byte.
Import ListNotations.
Set Warnings "-register-all".
Open Scope Z_scope.
Open Scope string_scope.

(** ** Common Rust vocabulary *)

(** Rust's [std::result::Result]. *)
Inductive result (A E : Type) : Type :=
| Ok (a : A)
| Err (e : E).
Arguments Ok {A E} a.
Arguments Err {A E} e.

(** Evaluation of a Rust expression that may panic ([panic!], [expect]). *)
Inductive outcome (A : Type) : Type :=
| Returned (a : A)
| Panic (msg : string).
Arguments Returned {A} a.
Arguments Panic {A} msg.

(** Decimal rendering of a number, as [format!("{}", n)] does. *)
Fixpoint digits_of_nat (fuel n : nat) (acc : string) : string :=
  match fuel with
  | O => acc
  | S fuel' =>
      let d := Nat.modulo n 10 in
      let acc' := String (ascii_of_nat (48 + d)) acc in
      if Nat.ltb n 10 then acc' else digits_of_nat fuel' (Nat.div n 10) acc'
  end.

Definition string_of_Z (z : Z) : string :=
  let s := digits_of_nat (S (Z.to_nat (Z.abs z))) (Z.to_nat (Z.abs z)) EmptyString in
  if Z.ltb z 0 then String "-" s else s.

(** [x as u32] for a 32-bit signed [x]. *)
Definition as_u32 (x : Z) : Z := x mod 2 ^ 32.

(** ** Results of native calls: [utils.rs] and [general/libwaku_response.rs] *)
Module Response.

(** Status codes of [libwaku.h], re-exported by [waku_sys]. *)
Definition RET_OK : Z := 0.
Definition RET_ERR : Z := 1.
Definition RET_MISSING_CALLBACK : Z := 2.

Inductive LibwakuResponse : Type :=
| Success (v : option string)
| Failure (v : string)
| MissingCallback
| Undefined.

(** [#[default] Undefined] *)
Definition default : LibwakuResponse := Undefined.

Definition LibwakuResponse_eqb (a b : LibwakuResponse) : bool :=
  match a, b with
  | Success None, Success None => true
  | Success (Some x), Success (Some y) => String.eqb x y
  | Failure x, Failure y => String.eqb x y
  | MissingCallback, MissingCallback => true
  | Undefined, Undefined => true
  | _, _ => false
  end.

(** [impl TryFrom<(u32, &str)> for LibwakuResponse] *)
Definition try_from (ret_code : Z) (response : string) : result LibwakuResponse string :=
  let opt_value := if String.eqb response EmptyString then None else Some response in
  if Z.eqb ret_code RET_OK then Ok (Success opt_value)
  else if Z.eqb ret_code RET_ERR then Ok (Failure ("waku error: " ++ response))
  else if Z.eqb ret_code RET_MISSING_CALLBACK then Ok MissingCallback
  else Err ("undefined return code " ++ string_of_Z ret_code).

(** [handle_no_response(code: i32, result: LibwakuResponse) -> Result<()>] *)
Definition handle_no_response (code : Z) (r : LibwakuResponse) : outcome (result unit string) :=
  if LibwakuResponse_eqb r Undefined && Z.eqb (as_u32 code) RET_OK then Returned (Ok tt)
  else match r with
       | Success _ => Returned (Ok tt)
       | Failure v => Returned (Err v)
       | MissingCallback => Panic "callback is required"
       | Undefined =>
           Panic ("undefined ffi state: code(" ++ string_of_Z code
                  ++ ") was returned but callback was not executed")
       end.

(** [handle_response<F: WakuDecode>(code, result) -> Result<F>], with
    [WakuDecode::decode] of the target type as [decode]. *)
Definition handle_response {F : Type} (decode : string -> result F string)
    (code : Z) (r : LibwakuResponse) : outcome (result F string) :=
  match r with
  | Success v => Returned (decode (match v with Some s => s | None => EmptyString end))
  | Failure v => Returned (Err v)
  | MissingCallback => Panic "callback is required"
  | Undefined =>
      Panic ("undefined ffi state: code(" ++ string_of_Z code
             ++ ") was returned but callback was not executed")
  end.

End Response.

(** ** The per-call completion trampoline: [macros.rs] / [utils.rs] *)
Module Trampoline.
Import Response.

Definition in_range (x lo hi : Z) : bool := Z.leb lo x && Z.leb x hi.
Definition bval (b : byte) : Z := Z.of_N (Byte.to_N b).
Definition cont (b : byte) : bool := in_range (bval b) 128 191.

(** Acceptance test of [std::str::from_utf8]: well-formed UTF-8 (no overlong
    forms, no surrogates, nothing above U+10FFFF). *)
Fixpoint from_utf8 (bs : list byte) : bool :=
  match bs with
  | [] => true
  | b0 :: r0 =>
      let x0 := bval b0 in
      if Z.ltb x0 128 then from_utf8 r0
      else if in_range x0 194 223 then
        match r0 with
        | b1 :: r1 => cont b1 && from_utf8 r1
        | [] => false
        end
      else if in_range x0 224 239 then
        match r0 with
        | b1 :: b2 :: r2 =>
            let lo := if Z.eqb x0 224 then 160 else 128 in
            let hi := if Z.eqb x0 237 then 159 else 191 in
            in_range (bval b1) lo hi && cont b2 && from_utf8 r2
        | _ => false
        end
      else if in_range x0 240 244 then
        match r0 with
        | b1 :: b2 :: b3 :: r3 =>
            let lo := if Z.eqb x0 240 then 144 else 128 in
            let hi := if Z.eqb x0 244 then 143 else 191 in
            in_range (bval b1) lo hi && cont b2 && cont b3 && from_utf8 r3
        | _ => false
        end
      else false
  end.

(** The raw [(data, data_len)] argument: [None] is a null pointer, [Some bs]
    the [data_len] bytes it points to. *)
Definition decode_data (data : option (list byte)) : outcome string :=
  match data with
  | None => Returned EmptyString
  | Some bs =>
      if from_utf8 bs then Returned (string_of_list_byte bs)
      else Panic "could not retrieve response"
  end.

(** [unsafe extern "C" fn trampoline<F: FnMut(LibwakuResponse)>]: the closure
    behind [user_data] is a state transformer [closure] on its captured
    state [st]. *)
Definition trampoline {St : Type} (closure : LibwakuResponse -> St -> St)
    (ret_code : Z) (data : option (list byte)) (st : St) : outcome St :=
  match decode_data data with
  | Panic m => Panic m
  | Returned response =>
      match try_from (as_u32 ret_code) response with
      | Ok r => Returned (closure r st)
      | Err e => Panic ("invalid response obtained from libwaku: " ++ e)
      end
  end.

(** A closure that records every value it receives, in order. *)
Definition recording_closure (r : LibwakuResponse) (seen : list LibwakuResponse)
    : list LibwakuResponse :=
  (seen ++ [r])%list.

(** The Pending Call Slot of [handle_ffi_call!]: the [result] variable and the
    number of [notify_one] calls made on the [Notify]. *)
Record slot := mk_slot { result_cell : LibwakuResponse; notified : nat }.

Definition new_slot : slot := mk_slot default 0.

(** The [result_cb] closure: [result = r; notify_clone.notify_one();]. *)
Definition result_cb (r : LibwakuResponse) (s : slot) : slot :=
  mk_slot r (S (notified s)).

End Trampoline.

(** ** Node handle typestate and the process-wide node flag: [node/mod.rs] *)
Module Lifecycle.

(** The state markers [Initialized] and [Running] of [trait WakuNodeState]. *)
Inductive NodeState := Initialized | Running.

Definition NodeState_eqb (a b : NodeState) : bool :=
  match a, b with
  | Initialized, Initialized | Running, Running => true
  | _, _ => false
  end.

(** The methods of [WakuNodeHandle<State>] that take a receiver. *)
Inductive Method :=
| PeerId | ListenAddresses | AddPeer
| Start | Stop
| ConnectPeerWithAddress | ConnectPeerWithId | DisconnectPeerWithId
| PeerCount | Peers
| RelayPublishMessage | RelayEnoughPeers | RelaySubscribe | RelayUnsubscribe
| RelayTopics
| StoreQuery | LocalStoreQuery
| LightpushPublish
| FilterSubscribe | FilterPing | FilterUnsubscribe | FilterUnsubscribeAll.

(** The methods of each [impl] block: [None] is
    [impl<State: WakuNodeState> WakuNodeHandle<State>], [Some s] is
    [impl WakuNodeHandle<s>]. *)
Definition impl_methods (blk : option NodeState) : list Method :=
  match blk with
  | None => [PeerId; ListenAddresses; AddPeer]
  | Some Initialized => [Start; Stop]
  | Some Running =>
      [Stop; ConnectPeerWithAddress; ConnectPeerWithId; DisconnectPeerWithId;
       PeerCount; Peers; RelayPublishMessage; RelayEnoughPeers; RelaySubscribe;
       RelayUnsubscribe; RelayTopics; StoreQuery; LocalStoreQuery;
       LightpushPublish; FilterSubscribe; FilterPing; FilterUnsubscribe;
       FilterUnsubscribeAll]
  end%list.

Definition Method_eqb (a b : Method) : bool :=
  match a, b with
  | PeerId, PeerId | ListenAddresses, ListenAddresses | AddPeer, AddPeer
  | Start, Start | Stop, Stop
  | ConnectPeerWithAddress, ConnectPeerWithAddress
  | ConnectPeerWithId, ConnectPeerWithId
  | DisconnectPeerWithId, DisconnectPeerWithId
  | PeerCount, PeerCount | Peers, Peers
  | RelayPublishMessage, RelayPublishMessage
  | RelayEnoughPeers, RelayEnoughPeers
  | RelaySubscribe, RelaySubscribe | RelayUnsubscribe, RelayUnsubscribe
  | RelayTopics, RelayTopics
  | StoreQuery, StoreQuery | LocalStoreQuery, LocalStoreQuery
  | LightpushPublish, LightpushPublish
  | FilterSubscribe, FilterSubscribe | FilterPing, FilterPing
  | FilterUnsubscribe, FilterUnsubscribe
  | FilterUnsubscribeAll, FilterUnsubscribeAll => true
  | _, _ => false
  end.

Definition mem (m : Method) (l : list Method) : bool := existsb (Method_eqb m) l.

(** Method resolution: [m] can be called on a [WakuNodeHandle<s>]. *)
Definition available (s : NodeState) (m : Method) : bool :=
  mem m (impl_methods None) || mem m (impl_methods (Some s)).

(** How a method takes its receiver: [&self], or [self] by value, in which
    case the handle is moved and the method gives back a handle in the
    state [next] ([None] when it gives back no handle). *)
Inductive Receiver := ByRef | ByValue (next : option NodeState).

(** [start(self) -> Result<WakuNodeHandle<Running>>],
    [stop(self) -> Result<()>], every other method takes [&self]. *)
Definition receiver (m : Method) : Receiver :=
  match m with
  | Start => ByValue (Some Running)
  | Stop => ByValue None
  | _ => ByRef
  end.

(** The handle a caller holds after calling [m] on a handle in state [s]:
    borrowing methods leave it in place, by-value methods move it. *)
Definition after (s : NodeState) (m : Method) : option NodeState :=
  match receiver m with
  | ByRef => Some s
  | ByValue next => next
  end.

(** A straight-line use of one handle ([h] is the handle held, [None] once it
    has been moved away) that the borrow checker and method resolution
    accept: each call resolves on the current handle's state. *)
Fixpoint well_typed (h : option NodeState) (prog : list Method) : bool :=
  match prog with
  | [] => true
  | m :: rest =>
      match h with
      | None => false
      | Some s => available s m && well_typed (after s m) rest
      end
  end.

(** The state of the handle each call of a well-typed program runs on. *)
Fixpoint trace (h : option NodeState) (prog : list Method) : list (NodeState * Method) :=
  match prog with
  | [] => []
  | m :: rest =>
      match h with
      | None => []
      | Some s => (s, m) :: trace (after s m) rest
      end
  end.

(** The operations the spec lists as available only on [Running]. *)
Definition spec_running_only (m : Method) : bool :=
  match m with
  | ConnectPeerWithAddress | ConnectPeerWithId
  | RelayPublishMessage | LightpushPublish
  | RelaySubscribe | RelayUnsubscribe
  | FilterSubscribe | FilterUnsubscribe | FilterUnsubscribeAll
  | StoreQuery | ListenAddresses => true
  | _ => false
  end.

(** The spec's Running-only list without listen-address enumeration. *)
Definition running_only (m : Method) : bool :=
  spec_running_only m && negb (Method_eqb m ListenAddresses).

(** The process: the [WAKU_NODE_INITIALIZED] flag, and the number of native
    nodes created so far (calls to [management::waku_new]). *)
Record Process := mk_process { node_initialized : bool; native_created : nat }.

(** [pub fn waku_new(config) -> Result<WakuNodeHandle<Initialized>>]; the
    outcome of the native [management::waku_new] call is [native]. *)
Definition waku_new (native : result unit string) (p : Process)
    : Process * result NodeState string :=
  if node_initialized p then (p, Err "Waku node is already initialized")
  else
    let p' := mk_process true (S (native_created p)) in
    (p', match native with
         | Ok _ => Ok Initialized
         | Err e => Err e
         end).

(** [fn stop_node() -> Result<()>]; [native] is the outcome of
    [management::waku_stop]. *)
Definition stop_node (native : result unit string) (p : Process)
    : Process * result unit string :=
  (mk_process false (native_created p), native).

(** Process-level operations: [waku_new] and [stop] on a handle, each with
    the outcome of its native call. *)
Inductive ProcOp := New (native : result unit string) | StopNode (native : result unit string).

Definition proc_step (op : ProcOp) (p : Process) : Process * result (option NodeState) string :=
  match op with
  | New n =>
      let '(p', r) := waku_new n p in
      (p', match r with Ok s => Ok (Some s) | Err e => Err e end)
  | StopNode n =>
      let '(p', r) := stop_node n p in
      (p', match r with Ok _ => Ok None | Err e => Err e end)
  end.

Fixpoint proc_run (ops : list ProcOp) (p : Process)
    : Process * list (result (option NodeState) string) :=
  match ops with
  | [] => (p, [])
  | op :: rest =>
      let '(p1, r) := proc_step op p in
      let '(p2, rs) := proc_run rest p1 in
      (p2, r :: rs)
  end.

End Lifecycle.

(** ** Message hashes: [general/messagehash.rs] *)
Module MessageHash.

(** [pub struct MessageHash([u8; 32])]: the byte list has length 32. *)
Definition MessageHash := list byte.

Definition upper_hex_digit (n : N) : ascii :=
  if (n <? 10)%N then ascii_of_N (48 + n) else ascii_of_N (55 + n).

(** [write!(output, "{b:02X}")] *)
Definition hex_byte (b : byte) : string :=
  let n := Byte.to_N b in
  String (upper_hex_digit (n / 16)) (String (upper_hex_digit (n mod 16)) EmptyString).

(** [fn to_hex_string(&self) -> String]: a fold appending each byte. *)
Definition to_hex_string (h : MessageHash) : string :=
  fold_left (fun output b => output ++ hex_byte b) h EmptyString.

(** One hex digit, upper or lower case, as the [hex] crate reads it. *)
Definition hex_val (c : ascii) : option N :=
  let n := N_of_ascii c in
  if (48 <=? n)%N && (n <=? 57)%N then Some (n - 48)%N
  else if (65 <=? n)%N && (n <=? 70)%N then Some (n - 55)%N
  else if (97 <=? n)%N && (n <=? 102)%N then Some (n - 87)%N
  else None.

(** [hex::FromHexError], the two cases [Vec::<u8>::from_hex] returns. *)
Inductive FromHexError :=
| InvalidHexCharacter (c : ascii) (index : nat)
| OddLength.

(** [(hi << 4) | lo] on two digit values, as a [u8]. *)
Definition byte_of_digits (hi lo : N) : byte :=
  match Byte.of_N (hi * 16 + lo) with
  | Some b => b
  | None => Byte.x00
  end.

(** The pairs loop of [Vec::<u8>::from_hex]: the chunk starting at position
    [index] gives one byte; the first character that is not a hex digit
    stops the decoding. *)
Fixpoint from_hex_pairs (index : nat) (s : string) : result (list byte) FromHexError :=
  match s with
  | EmptyString => Ok []
  | String hi (String lo rest) =>
      match hex_val hi with
      | None => Err (InvalidHexCharacter hi index)
      | Some h =>
          match hex_val lo with
          | None => Err (InvalidHexCharacter lo (S index))
          | Some l =>
              match from_hex_pairs (S (S index)) rest with
              | Ok bs => Ok (byte_of_digits h l :: bs)
              | Err e => Err e
              end
          end
      end
  | String _ EmptyString => Err OddLength
  end.

(** [Vec::<u8>::from_hex]: an odd number of characters is refused before
    any digit is read. *)
Definition from_hex (s : string) : result (list byte) FromHexError :=
  if Nat.odd (String.length s) then Err OddLength else from_hex_pairs 0 s.

Definition lower_hex_digit (n : N) : ascii :=
  if (n <? 10)%N then ascii_of_N (48 + n) else ascii_of_N (87 + n).

(** [{:?}] of [c as char], a code point below 256: [char::escape_debug]
    between single quotes. The named escapes; the printable characters
    (U+0020-U+007E, U+00A1-U+00FF but U+00AD) as their UTF-8 bytes; the
    others as [\u{..}] in lower-case hex without leading zeros. *)
Definition char_debug (c : ascii) : string :=
  let n := N_of_ascii c in
  let body :=
    if (n =? 0)%N then "\0"
    else if (n =? 9)%N then "\t"
    else if (n =? 10)%N then "\n"
    else if (n =? 13)%N then "\r"
    else if (n =? 39)%N then "\'"
    else if (n =? 92)%N then "\\"
    else if (32 <=? n)%N && (n <=? 126)%N then String c EmptyString
    else if (161 <=? n)%N && negb (n =? 173)%N then
      String (ascii_of_N (192 + n / 64)) (String (ascii_of_N (128 + n mod 64)) EmptyString)
    else if (n <? 16)%N then "\u{" ++ String (lower_hex_digit n) "}"
    else "\u{" ++ String (lower_hex_digit (n / 16)) (String (lower_hex_digit (n mod 16)) "}") in
  "'" ++ body ++ "'".

(** [impl Display for FromHexError] *)
Definition from_hex_error_to_string (e : FromHexError) : string :=
  match e with
  | InvalidHexCharacter c index =>
      "Invalid character " ++ char_debug c ++ " at position " ++ string_of_Z (Z.of_nat index)
  | OddLength => "Odd number of digits"
  end.

(** [s.strip_prefix("0x").unwrap_or(s)] *)
Definition strip_0x (s : string) : string :=
  match s with
  | String "0" (String "x" rest) => rest
  | _ => s
  end.

(** [impl FromStr for MessageHash] *)
Definition from_str (s : string) : result MessageHash string :=
  match from_hex (strip_0x s) with
  | Err e => Err ("Hex decode error MessageHash: " ++ from_hex_error_to_string e)
  | Ok bytes =>
      if Nat.eqb (List.length bytes) 32 then Ok bytes
      else Err "Hex string must represent exactly 32 bytes"
  end.

End MessageHash.

(** ** Content topics: [general/contenttopic.rs] *)
Module ContentTopic.

Inductive Encoding := Proto | Rlp | Rfc26 | Unknown (value : string).

(** [impl Display for Encoding] *)
Definition encoding_to_string (e : Encoding) : string :=
  match e with
  | Proto => "proto"
  | Rlp => "rlp"
  | Rfc26 => "rfc26"
  | Unknown value => value
  end.

Record WakuContentTopic := mk_topic {
  application_name : string;
  version : string;
  content_topic_name : string;
  encoding : Encoding
}.

(** [impl Display for WakuContentTopic]: ["/{}/{}/{}/{}"]. *)
Definition to_string (t : WakuContentTopic) : string :=
  "/" ++ application_name t ++ "/" ++ version t ++ "/" ++ content_topic_name t
  ++ "/" ++ encoding_to_string (encoding t).

Definition newline : ascii := ascii_of_nat 10.
Definition slash : ascii := "/".

(** The regex [.+?] followed by a literal ["/"] and the continuation [k],
    with the leftmost-first (backtracking) choice of the regex crate: the
    shortest non-empty prefix for which the rest matches. [.] matches any
    character but a line feed. [acc] is the text consumed so far. *)
Fixpoint lazy_group {X : Type} (acc : string) (s : string)
    (k : string -> option X) : option (string * X) :=
  match s with
  | EmptyString => None
  | String c rest =>
      if Ascii.eqb c newline then None
      else
        let acc' := acc ++ String c EmptyString in
        match rest with
        | String c2 rest' =>
            if Ascii.eqb c2 slash then
              match k rest' with
              | Some x => Some (acc', x)
              | None => lazy_group acc' rest k
              end
            else lazy_group acc' rest k
        | EmptyString => lazy_group acc' rest k
        end
  end.

Definition no_newline (s : string) : bool :=
  forallb (fun c => negb (Ascii.eqb c newline)) (list_ascii_of_string s).

(** A final [.+?] before the end anchor [$]: the whole remaining text. *)
Definition last_group (s : string) : option string :=
  if negb (String.eqb s EmptyString) && no_newline s then Some s else None.

(** A segment of the canonical form: non-empty, without ["/"] and without
    line feed. *)
Definition plain_segment (s : string) : bool :=
  negb (String.eqb s EmptyString)
  && forallb (fun c => negb (Ascii.eqb c slash) && negb (Ascii.eqb c newline))
       (list_ascii_of_string s).

Section Parse.
(** [str::to_lowercase] (Unicode lower-casing of the standard library). *)
Variable to_lowercase : string -> string.

(** [impl FromStr for Encoding] *)
Definition encoding_from_str (s : string) : Encoding :=
  let l := to_lowercase s in
  if String.eqb l "proto" then Proto
  else if String.eqb l "rlp" then Rlp
  else if String.eqb l "rfc26" then Rfc26
  else Unknown l.

(** [scanf!(s, "/{}/{}/{}/{:/.+?/}", String, String, String, Encoding)]:
    the anchored regex [^/(.+?)/(.+?)/(.+?)/(.+?)$]. *)
Definition scan (s : string) : option (string * string * string * string) :=
  match s with
  | String c0 r1 =>
      if negb (Ascii.eqb c0 slash) then None else
      match lazy_group EmptyString r1 (fun r2 =>
              lazy_group EmptyString r2 (fun r3 =>
                lazy_group EmptyString r3 last_group)) with
      | Some (a, (v, (n, e))) => Some (a, v, n, e)
      | None => None
      end
  | _ => None
  end.

(** [impl FromStr for WakuContentTopic] *)
Definition from_str (s : string) : result WakuContentTopic string :=
  match scan s with
  | Some (a, v, n, e) => Ok (mk_topic a v n (encoding_from_str e))
  | None =>
      Err ("Wrong pub-sub topic format. Should be `/{application-name}/{version-of-the-application}/{content-topic-name}/{encoding}`. Got: "
           ++ s)
  end.
End Parse.

(** [str::to_lowercase] on ASCII text, where it maps [A-Z] to [a-z] and keeps
    every other character. *)
Definition ascii_to_lowercase (s : string) : string :=
  string_of_list_ascii
    (map (fun c => let n := nat_of_ascii c in
                   if Nat.leb 65 n && Nat.leb n 90 then ascii_of_nat (n + 32) else c)
         (list_ascii_of_string s)).

End ContentTopic.

(** ** Store queries: [node/store.rs] *)
Module Store.
Import MessageHash.

(** [pub struct StoreQueryRequest] *)
Record StoreQueryRequest := mk_request {
  request_id : string;
  include_data : bool;
  pubsub_topic : option string;
  content_topics : list string;
  time_start : option Z;
  time_end : option Z;
  message_hashes : option (list MessageHash);
  pagination_cursor : option MessageHash;
  pagination_forward : bool;
  pagination_limit : option Z
}.

(** [pub fn with_pagination_cursor(mut self, pagination_cursor) -> Self] *)
Definition with_pagination_cursor (q : StoreQueryRequest) (c : option MessageHash)
    : StoreQueryRequest :=
  mk_request (request_id q) (include_data q) (pubsub_topic q) (content_topics q)
    (time_start q) (time_end q) (message_hashes q) c (pagination_forward q)
    (pagination_limit q).

(** [pub struct StoreWakuMessageResponse]; the message body is kept opaque. *)
Record StoreWakuMessageResponse := mk_msg {
  message_hash : MessageHash;
  message : string;
  msg_pubsub_topic : string
}.

(** [pub struct StoreResponse] *)
Record StoreResponse := mk_response {
  response_request_id : string;
  status_code : Z;
  status_desc : string;
  messages : list StoreWakuMessageResponse;
  response_cursor : option MessageHash
}.

(** The native [waku_store_query] call behind [handle_ffi_call!] as the
    walker sees it: the [n]-th call (from 0) with request [q] yields a
    decoded response or the error of the page. *)
Definition Native := nat -> StoreQueryRequest -> result StoreResponse string.

(** Modelled from the spec: the paginated store-query walk of the node
    handle (§4.6), which is not part of [src/]. Starting from [first] with no
    cursor, it issues one request per page, appends the page's messages,
    stops when the returned cursor is absent, and otherwise repeats with
    [first] carrying the returned cursor; the accumulator is reversed before
    it is returned, and a failing page aborts the walk with its error. The
    loop is unbounded; [fuel] bounds it ([None] when it runs out). The
    requests issued are returned alongside the result. *)
Fixpoint walk (fuel : nat) (native : Native) (first : StoreQueryRequest)
    (n : nat) (cursor : option MessageHash) (acc : list StoreWakuMessageResponse)
    (issued : list StoreQueryRequest)
    : option (list StoreQueryRequest * result (list StoreWakuMessageResponse) string) :=
  match fuel with
  | O => None
  | S fuel' =>
      let q := with_pagination_cursor first cursor in
      let issued' := (issued ++ [q])%list in
      match native n q with
      | Err e => Some (issued', Err e)
      | Ok resp =>
          let acc' := (acc ++ messages resp)%list in
          match response_cursor resp with
          | None => Some (issued', Ok (rev acc'))
          | Some c => walk fuel' native first (S n) (Some c) acc' issued'
          end
      end
  end.

Definition store_query_walk (fuel : nat) (native : Native) (first : StoreQueryRequest) :=
  walk fuel native first 0 None [] [].

(** The requests of a walk that receives the pages [rs], starting after a
    page whose cursor was [prev]. *)
Fixpoint page_requests (first : StoreQueryRequest) (prev : option MessageHash)
    (rs : list StoreResponse) : list StoreQueryRequest :=
  match rs with
  | [] => []
  | r :: rest => with_pagination_cursor first prev :: page_requests first (response_cursor r) rest
  end.

(** Every page but the last carries a cursor, the last one does not. *)
Fixpoint cursor_chain (rs : list StoreResponse) : bool :=
  match rs with
  | [] => false
  | [r] => match response_cursor r with None => true | Some _ => false end
  | r :: rest => match response_cursor r with None => false | Some _ => cursor_chain rest end
  end.

(** [native] answers the [i]-th request of the walk with the [i]-th page,
    from call number [n] on. *)
Fixpoint serves (native : Native) (n : nat) (qs : list StoreQueryRequest)
    (rs : list StoreResponse) : Prop :=
  match qs, rs with
  | q :: qs', r :: rs' => native n q = Ok r /\ serves native (S n) qs' rs'
  | [], [] => True
  | _, _ => False
  end.

(** A concrete history for exercising the walk: three pages of two
    messages, chained by the cursors [page_hash 1] and [page_hash 2]. *)
Definition fill_byte (i : nat) : byte :=
  match Byte.of_nat i with Some b => b | None => x00 end.

Definition page_hash (i : nat) : MessageHash := repeat (fill_byte i) 32.

Definition example_msg (i : nat) : StoreWakuMessageResponse :=
  mk_msg (repeat (fill_byte (10 + i)) 32) (string_of_Z (Z.of_nat i)) "/waku/2/rs/0/0".

Definition example_first : StoreQueryRequest :=
  mk_request "req" true (Some "/waku/2/rs/0/0") ["/toychat/2/huilong/proto"]
    (Some 0) (Some 100) None None true (Some 2).

Definition example_page (cursor : option MessageHash) : StoreResponse :=
  match cursor with
  | None => mk_response "req" 200 "OK" [example_msg 1; example_msg 2] (Some (page_hash 1))
  | Some c =>
      if (match c with b :: _ => Byte.eqb b (fill_byte 1) | [] => false end) then
        mk_response "req" 200 "OK" [example_msg 3; example_msg 4] (Some (page_hash 2))
      else mk_response "req" 200 "OK" [example_msg 5; example_msg 6] None
  end.

Definition example_native : Native := fun _ q => Ok (example_page (pagination_cursor q)).

End Store.

(** ** Events: [node/events.rs] *)
Module Events.
Import Response.

(** [serde_json::Value]. A number is an integer in the range of [i64] or
    [u64] (JSON numbers outside it are read as floats, not modelled); an
    object is the list of its entries in the order of the text. *)
Inductive Value :=
| VNull
| VBool (b : bool)
| VNumber (n : Z)
| VString (s : string)
| VArray (l : list Value)
| VObject (fields : list (string * Value)).

Fixpoint lookup (k : string) (fields : list (string * Value)) : option Value :=
  match fields with
  | [] => None
  | (k', v) :: rest => if String.eqb k k' then Some v else lookup k rest
  end.

Definition remove_key (k : string) (fields : list (string * Value)) : list (string * Value) :=
  filter (fun kv => negb (String.eqb k (fst kv))) fields.

(** [serde::de::Unexpected] of a JSON value, as serde_json and serde's
    [Content] report it: [null] is the unit value, an integer is unsigned
    when it is not negative. *)
Inductive Unexpected :=
| UBool (b : bool)
| UUnsigned (n : Z)
| USigned (n : Z)
| UStr (s : string)
| UUnit
| USeq
| UMap.

Definition unexpected (v : Value) : Unexpected :=
  match v with
  | VNull => UUnit
  | VBool b => UBool b
  | VNumber n => if Z.leb 0 n then UUnsigned n else USigned n
  | VString s => UStr s
  | VArray _ => USeq
  | VObject _ => UMap
  end.

(** The [serde::de::Error] constructors the deserializers below use, with
    their arguments (the text serde_json makes of them adds the position in
    the input). *)
Inductive DeError :=
| InvalidType (unexp : Unexpected) (expected : string)
| InvalidValue (unexp : Unexpected) (expected : string)
| InvalidLength (len : nat) (expected : string)
| UnknownVariant (variant : string) (expected : list string)
| MissingField (field : string)
| DuplicateField (field : string)
| Custom (msg : string).

(** [String::deserialize] *)
Definition de_string (v : Value) : result string DeError :=
  match v with
  | VString s => Ok s
  | _ => Err (InvalidType (unexpected v) "a string")
  end.

(** [bool::deserialize] *)
Definition de_bool (v : Value) : result bool DeError :=
  match v with
  | VBool b => Ok b
  | _ => Err (InvalidType (unexpected v) "a boolean")
  end.

(** [usize::deserialize] on a 64-bit target. *)
Definition de_usize (v : Value) : result Z DeError :=
  match v with
  | VNumber n => if Z.leb 0 n then Ok n else Err (InvalidValue (USigned n) "usize")
  | _ => Err (InvalidType (unexpected v) "usize")
  end.

(** [u8::deserialize] *)
Definition de_u8 (v : Value) : result byte DeError :=
  match v with
  | VNumber n =>
      if Z.ltb n 0 then Err (InvalidValue (USigned n) "u8")
      else if Z.leb n 255 then
        match Byte.of_N (Z.to_N n) with
        | Some b => Ok b
        | None => Err (InvalidValue (UUnsigned n) "u8")
        end
      else Err (InvalidValue (UUnsigned n) "u8")
  | _ => Err (InvalidType (unexpected v) "u8")
  end.

(** The elements of a [Vec<u8>], read in order. *)
Fixpoint de_bytes (l : list Value) : result (list byte) DeError :=
  match l with
  | [] => Ok []
  | x :: rest =>
      match de_u8 x with
      | Err e => Err e
      | Ok b =>
          match de_bytes rest with
          | Ok bs => Ok (b :: bs)
          | Err e => Err e
          end
      end
  end.

(** [impl Deserialize for MessageHash]: a [Vec<u8>] (a sequence), which
    [try_into] turns into [[u8; 32]]. *)
Definition decode_hash (v : Value) : result MessageHash.MessageHash DeError :=
  match v with
  | VArray l =>
      match de_bytes l with
      | Err e => Err e
      | Ok bs => if Nat.eqb (List.length bs) 32 then Ok bs
                 else Err (Custom "Expected an array of length 32")
      end
  | _ => Err (InvalidType (unexpected v) "a sequence")
  end.

(** A field slot of a derived [visit_map]: a second occurrence of the key
    is refused before its value is read. *)
Definition put {A : Type} (name : string) (slot : option A) (r : result A DeError)
    : result (option A) DeError :=
  match slot with
  | Some _ => Err (DuplicateField name)
  | None => match r with
            | Ok x => Ok (Some x)
            | Err e => Err e
            end
  end.

(** A field without [#[serde(default)]] after the entries are read. *)
Definition required {A : Type} (name : string) (slot : option A) : result A DeError :=
  match slot with
  | Some x => Ok x
  | None => Err (MissingField name)
  end.

(** [general/mod.rs]: [pub struct WakuMessage] and its derived [Deserialize]
    with [rename_all = "camelCase"]. *)
Module General.

Record WakuMessage := mk_message {
  payload : list byte;
  content_topic : ContentTopic.WakuContentTopic;
  version : Z;
  timestamp : Z;
  meta : list byte;
  ephemeral : bool;
  (** [#[serde(flatten)] _extras]: the entries of no other field. *)
  extras : list (string * Value)
}.

(** The [Option] variables of the derived [visit_map], and the entries kept
    for the flattened field. *)
Record MessageFields := mk_fields {
  field_payload : option (list byte);
  field_content_topic : option ContentTopic.WakuContentTopic;
  field_version : option Z;
  field_timestamp : option Z;
  field_meta : option (list byte);
  field_ephemeral : option bool;
  collect : list (string * Value)
}.

Definition no_fields : MessageFields := mk_fields None None None None None None [].

Section Decode.
(** [str::to_lowercase], used by [Encoding::from_str]. *)
Variable to_lowercase : string -> string.
(** [base64::engine::general_purpose::STANDARD.decode], its error as the
    text of its [Display]. *)
Variable base64_decode : string -> result (list byte) string.

(** [base64_serde::deserialize] *)
Definition de_base64 (v : Value) : result (list byte) DeError :=
  match de_string v with
  | Err e => Err e
  | Ok s => match base64_decode s with
            | Ok bs => Ok bs
            | Err m => Err (Custom m)
            end
  end.

(** [impl Deserialize for WakuContentTopic]: a string parsed with
    [WakuContentTopic::from_str], its error made a custom error. *)
Definition de_content_topic (v : Value) : result ContentTopic.WakuContentTopic DeError :=
  match de_string v with
  | Err e => Err e
  | Ok s => match ContentTopic.from_str to_lowercase s with
            | Ok t => Ok t
            | Err m => Err (Custom m)
            end
  end.

(** One entry of the map: a known key fills its slot, any other entry is
    kept for [_extras]. *)
Definition visit_entry (acc : MessageFields) (k : string) (v : Value)
    : result MessageFields DeError :=
  let '(mk_fields p t ver ts m e c) := acc in
  if String.eqb k "payload" then
    match put "payload" p (de_base64 v) with
    | Ok p' => Ok (mk_fields p' t ver ts m e c)
    | Err x => Err x
    end
  else if String.eqb k "contentTopic" then
    match put "contentTopic" t (de_content_topic v) with
    | Ok t' => Ok (mk_fields p t' ver ts m e c)
    | Err x => Err x
    end
  else if String.eqb k "version" then
    match put "version" ver (de_usize v) with
    | Ok ver' => Ok (mk_fields p t ver' ts m e c)
    | Err x => Err x
    end
  else if String.eqb k "timestamp" then
    match put "timestamp" ts (de_usize v) with
    | Ok ts' => Ok (mk_fields p t ver ts' m e c)
    | Err x => Err x
    end
  else if String.eqb k "meta" then
    match put "meta" m (de_base64 v) with
    | Ok m' => Ok (mk_fields p t ver ts m' e c)
    | Err x => Err x
    end
  else if String.eqb k "ephemeral" then
    match put "ephemeral" e (de_bool v) with
    | Ok e' => Ok (mk_fields p t ver ts m e' c)
    | Err x => Err x
    end
  else Ok (mk_fields p t ver ts m e (c ++ [(k, v)])).

Fixpoint visit_map (acc : MessageFields) (entries : list (string * Value))
    : result MessageFields DeError :=
  match entries with
  | [] => Ok acc
  | (k, v) :: rest =>
      match visit_entry acc k v with
      | Ok acc' => visit_map acc' rest
      | Err e => Err e
      end
  end.

(** [WakuMessage::deserialize]: a struct with a flattened field is read
    as a map only. [payload], [meta] default to empty, [version] to 0 and
    [ephemeral] to [false]; [contentTopic] and [timestamp] are required,
    checked in the order of the declaration. *)
Definition decode_message (v : Value) : result WakuMessage DeError :=
  match v with
  | VObject entries =>
      match visit_map no_fields entries with
      | Err e => Err e
      | Ok (mk_fields p t ver ts m e c) =>
          match required "contentTopic" t with
          | Err x => Err x
          | Ok topic =>
              match required "timestamp" ts with
              | Err x => Err x
              | Ok stamp =>
                  Ok (mk_message (match p with Some x => x | None => [] end) topic
                        (match ver with Some x => x | None => 0 end) stamp
                        (match m with Some x => x | None => [] end)
                        (match e with Some x => x | None => false end) c)
              end
          end
      end
  | _ => Err (InvalidType (unexpected v) "struct WakuMessage")
  end.
End Decode.

End General.

(** [pub struct WakuMessageEvent] *)
Record WakuMessageEvent := mk_event {
  pubsub_topic : string;
  message_hash : MessageHash.MessageHash;
  waku_message : General.WakuMessage
}.

(** [pub enum Event] *)
Inductive Event :=
| WakuMessage (evt : WakuMessageEvent)
| Unrecognized (v : Value).

(** The variant identifier of [Event]: ["message"] (explicit rename) or
    ["unrecognized"] (camelCase of [Unrecognized]). *)
Inductive EventTag := TagMessage | TagUnrecognized.

Definition EVENT_VARIANTS : list string := ["message"; "unrecognized"].

(** The tag read as a variant identifier (serde_json reads an identifier as
    a string). *)
Definition event_tag (v : Value) : result EventTag DeError :=
  match v with
  | VString s =>
      if String.eqb s "message" then Ok TagMessage
      else if String.eqb s "unrecognized" then Ok TagUnrecognized
      else Err (UnknownVariant s EVENT_VARIANTS)
  | _ => Err (InvalidType (unexpected v) "variant identifier")
  end.

(** [TaggedContentVisitor::visit_map] for [tag = "eventType"]: the tag is
    read where it occurs, a second tag is a duplicate field, every other
    entry is kept in order as the variant's content. *)
Fixpoint split_tag (entries : list (string * Value)) (tag : option EventTag)
    (content : list (string * Value))
    : result (option EventTag * list (string * Value)) DeError :=
  match entries with
  | [] => Ok (tag, content)
  | (k, v) :: rest =>
      if String.eqb k "eventType" then
        match tag with
        | Some _ => Err (DuplicateField "eventType")
        | None => match event_tag v with
                  | Ok t => split_tag rest (Some t) content
                  | Err e => Err e
                  end
        end
      else split_tag rest tag (content ++ [(k, v)])
  end.

Section Decode.
Variable to_lowercase : string -> string.
Variable base64_decode : string -> result (list byte) string.

(** The derived [visit_map] of [WakuMessageEvent]
    ([rename_all = "camelCase"], unknown keys ignored). *)
Fixpoint visit_event_map (acc : option string * option MessageHash.MessageHash
                                * option General.WakuMessage)
    (entries : list (string * Value))
    : result (option string * option MessageHash.MessageHash
              * option General.WakuMessage) DeError :=
  match entries with
  | [] => Ok acc
  | (k, v) :: rest =>
      let '(t, h, m) := acc in
      let next :=
        if String.eqb k "pubsubTopic" then
          match put "pubsubTopic" t (de_string v) with
          | Ok t' => Ok (t', h, m)
          | Err e => Err e
          end
        else if String.eqb k "messageHash" then
          match put "messageHash" h (decode_hash v) with
          | Ok h' => Ok (t, h', m)
          | Err e => Err e
          end
        else if String.eqb k "wakuMessage" then
          match put "wakuMessage" m (General.decode_message to_lowercase base64_decode v) with
          | Ok m' => Ok (t, h, m')
          | Err e => Err e
          end
        else Ok acc in
      match next with
      | Ok acc' => visit_event_map acc' rest
      | Err e => Err e
      end
  end.

(** The derived [visit_seq] of [WakuMessageEvent], then the check that the
    sequence has no element left. *)
Definition visit_event_seq (l : list Value) : result WakuMessageEvent DeError :=
  let expected := "struct WakuMessageEvent with 3 elements" in
  match l with
  | [] => Err (InvalidLength 0 expected)
  | a :: l1 =>
      match de_string a with
      | Err e => Err e
      | Ok t =>
          match l1 with
          | [] => Err (InvalidLength 1 expected)
          | b :: l2 =>
              match decode_hash b with
              | Err e => Err e
              | Ok h =>
                  match l2 with
                  | [] => Err (InvalidLength 2 expected)
                  | c :: l3 =>
                      match General.decode_message to_lowercase base64_decode c with
                      | Err e => Err e
                      | Ok m =>
                          match l3 with
                          | [] => Ok (mk_event t h m)
                          | _ => Err (InvalidLength (3 + List.length l3)
                                        "3 elements in sequence")
                          end
                      end
                  end
              end
          end
      end
  end.

(** [WakuMessageEvent::deserialize] on the buffered content of the variant:
    a map or a sequence. *)
Definition decode_message_event (content : Value) : result WakuMessageEvent DeError :=
  match content with
  | VObject entries =>
      match visit_event_map (None, None, None) entries with
      | Err e => Err e
      | Ok (t, h, m) =>
          match required "pubsubTopic" t with
          | Err e => Err e
          | Ok t' =>
              match required "messageHash" h with
              | Err e => Err e
              | Ok h' =>
                  match required "wakuMessage" m with
                  | Err e => Err e
                  | Ok m' => Ok (mk_event t' h' m')
                  end
              end
          end
      end
  | VArray l => visit_event_seq l
  | _ => Err (InvalidType (unexpected content) "struct WakuMessageEvent")
  end.

(** The variant's content deserialized: a [WakuMessageEvent] for
    ["message"], any [serde_json::Value] for ["unrecognized"]. *)
Definition decode_variant (tag : EventTag) (content : Value) : result Event DeError :=
  match tag with
  | TagMessage =>
      match decode_message_event content with
      | Ok evt => Ok (WakuMessage evt)
      | Err e => Err e
      end
  | TagUnrecognized => Ok (Unrecognized content)
  end.

(** The derived [Deserialize] of [Event] with [#[serde(tag = "eventType",
    rename_all = "camelCase")]] (an internally tagged enum): a map with the
    tag among its entries, or a sequence whose first element is the tag. *)
Definition decode_event (v : Value) : result Event DeError :=
  match v with
  | VObject entries =>
      match split_tag entries None [] with
      | Err e => Err e
      | Ok (None, _) => Err (MissingField "eventType")
      | Ok (Some tag, content) => decode_variant tag (VObject content)
      end
  | VArray l =>
      match l with
      | [] => Err (MissingField "eventType")
      | t :: rest =>
          match event_tag t with
          | Err e => Err e
          | Ok tag => decode_variant tag (VArray rest)
          end
      end
  | _ => Err (InvalidType (unexpected v) "internally tagged enum Event")
  end.
End Decode.

(** A [serde_json::Error]: the text is not JSON, or its value does not
    deserialize. *)
Inductive JsonError :=
| Syntax
| Data (e : DeError).

Section Callback.
(** The JSON text reader of [serde_json] ([None] on a syntax error). *)
Variable parse_json : string -> option Value.
Variable to_lowercase : string -> string.
Variable base64_decode : string -> result (list byte) string.
(** [{:?}] of the [serde_json::Error] met on the text [s]: it shows the
    message and the line and column in [s]. *)
Variable error_debug : string -> JsonError -> string.
(** [{:?}] of a [serde_json::Value]. *)
Variable value_debug : Value -> string.

(** [serde_json::from_str::<Event>] *)
Definition event_from_str (s : string) : result Event JsonError :=
  match parse_json s with
  | None => Err Syntax
  | Some v =>
      match decode_event to_lowercase base64_decode v with
      | Ok e => Ok e
      | Err e => Err (Data e)
      end
  end.

(** [fn waku_event_callback(response: LibwakuResponse)] of [node/events.rs].
    The message branch prints the payload and hands it to the channel
    [tx_clone] of the application, which the file does not declare; it is
    modelled as returning. The arm [_ => panic!("event case not expected")]
    is unreachable: [Event] has two variants. *)
Definition waku_event_callback (response : LibwakuResponse) : outcome unit :=
  match response with
  | Success v =>
      match v with
      | None => Panic "called `Option::unwrap()` on a `None` value"
      | Some s =>
          match event_from_str s with
          | Err e => Panic ("Parsing event to succeed: " ++ error_debug s e)
          | Ok (WakuMessage _) => Returned tt
          | Ok (Unrecognized err) => Panic ("Unrecognized waku event: " ++ value_debug err)
          end
      end
  | _ => Returned tt
  end.
End Callback.

Definition dquote : ascii := ascii_of_nat 34.

(** A JSON string literal with the body [s] (no escapes). *)
Definition jstr (s : string) : string := String dquote (s ++ String dquote EmptyString).

(** Reads a JSON string body up to its closing quote (no escapes). *)
Fixpoint read_string (s : string) (acc : string) : option (string * string) :=
  match s with
  | EmptyString => None
  | String c rest =>
      if Ascii.eqb c dquote then Some (acc, rest)
      else read_string rest (acc ++ String c EmptyString)
  end.

(** A reader for the flat JSON objects [{"k":"v",...}] (no blanks, no
    escapes, string values only); on those texts it agrees with
    [serde_json], and it returns [None] on every other text. *)
Fixpoint read_fields (fuel : nat) (s : string) : option (list (string * Value)) :=
  match fuel with
  | O => None
  | S fuel' =>
      match s with
      | String q1 r1 =>
          if Ascii.eqb q1 dquote then
            match read_string r1 EmptyString with
            | Some (k, String ":" (String q2 r2)) =>
                if Ascii.eqb q2 dquote then
                  match read_string r2 EmptyString with
                  | Some (v, String "}" EmptyString) => Some [(k, VString v)]
                  | Some (v, String "," r3) =>
                      match read_fields fuel' r3 with
                      | Some fs => Some ((k, VString v) :: fs)
                      | None => None
                      end
                  | _ => None
                  end
                else None
            | _ => None
            end
          else None
      | EmptyString => None
      end
  end.

Definition flat_json (s : string) : option Value :=
  match s with
  | String "{" (String "}" EmptyString) => Some (VObject [])
  | String "{" r => match read_fields (String.length r) r with
                    | Some fs => Some (VObject fs)
                    | None => None
                    end
  | _ => None
  end.

End Events.

(** ** Timeouts handed to native calls *)
Module Timeout.

(** [std::time::Duration]: [secs : u64] and [nanos < 1_000_000_000]. *)
Record Duration := mk_duration { secs : Z; nanos : Z }.

Definition valid_duration (d : Duration) : Prop :=
  0 <= secs d < 2 ^ 64 /\ 0 <= nanos d < 1000000000.

(** [Duration::as_millis] (a [u128]). *)
Definition as_millis (d : Duration) : Z := secs d * 1000 + nanos d / 1000000.

Definition I32_MAX : Z := 2 ^ 31 - 1.

(** [u128 -> i32] via [try_into]. *)
Definition try_into_i32 (x : Z) : result Z unit :=
  if Z.leb (- 2 ^ 31) x && Z.leb x I32_MAX then Ok x else Err tt.

(** [peers.rs], [waku_connect_peer_with_address] and [waku_connect_peer_with_id]:
    [timeout.map(|d| d.as_millis().try_into().unwrap_or(i32::MAX)).unwrap_or(0)] *)
Definition connect_timeout (timeout : option Duration) : Z :=
  match timeout with
  | None => 0
  | Some d => match try_into_i32 (as_millis d) with Ok v => v | Err _ => I32_MAX end
  end.

(** [relay.rs], [lightpush.rs], [filter.rs], [discovery.rs]:
    [timeout.map(|d| d.as_millis().try_into()
        .expect("Duration as milliseconds should fit in a i32")).unwrap_or(0)] *)
Definition expect_timeout (timeout : option Duration) : outcome Z :=
  match timeout with
  | None => Returned 0
  | Some d =>
      match try_into_i32 (as_millis d) with
      | Ok v => Returned v
      | Err _ => Panic "Duration as milliseconds should fit in a i32"
      end
  end.

(** [legacyfilter.rs], [waku_legacy_filter_subscribe] and
    [waku_legacy_filter_unsubscribe]: [timeout.as_millis().try_into()
        .expect("Duration as milliseconds should fit in a i32")] *)
Definition legacy_filter_timeout (timeout : Duration) : outcome Z :=
  match try_into_i32 (as_millis timeout) with
  | Ok v => Returned v
  | Err _ => Panic "Duration as milliseconds should fit in a i32"
  end.

End Timeout.

(** ** The [FromStr]-based response handler of [utils.rs] *)
Module Utils.
Import Response.

(** [utils.rs], [handle_response<F: FromStr>(code, result) -> Result<F>]:
    the payload goes through [str::parse] ([parse]), whose error is replaced
    by a fixed message. *)
Definition handle_response {F E : Type} (parse : string -> result F E)
    (code : Z) (r : LibwakuResponse) : outcome (result F string) :=
  match r with
  | Success v =>
      Returned (match parse (match v with Some s => s | None => EmptyString end) with
                | Ok x => Ok x
                | Err _ => Err "could not parse value"
                end)
  | Failure v => Returned (Err v)
  | MissingCallback => Panic "callback is required"
  | Undefined =>
      Panic ("undefined ffi state: code(" ++ string_of_Z code
             ++ ") was returned but callback was not executed")
  end.

End Utils.

(** ** One native call with its completion: [handle_ffi_call!] in
    [macros.rs], written out inline in [node/management.rs] *)
Module Ffi.
Import Response Trampoline.

(** The native function returns [ret] (the status code, or the node pointer
    for [waku_new]) and invokes the trampoline at most once, with
    [(ret_code, data)] ([callback = None]: never). [notify.notified().await]
    completes only once [notify_one] has been called (a stored permit counts):
    [None] is a call that waits forever. A panic in the callback is a
    [Panic]. Then the response handler runs on [ret] and the [result] cell. *)
Definition handle_ffi_call {C R : Type} (resp_hndlr : C -> LibwakuResponse -> outcome R)
    (ret : C) (callback : option (Z * option (list byte))) : option (outcome R) :=
  let after_call :=
    match callback with
    | None => Returned new_slot
    | Some (ret_code, data) => trampoline result_cb ret_code data new_slot
    end in
  match after_call with
  | Panic m => Some (Panic m)
  | Returned s =>
      if Nat.eqb (notified s) 0 then None else Some (resp_hndlr ret (result_cell s))
  end.

End Ffi.

(** ** The node context and its event callback: [node/context.rs] *)
Module Context.
Import Response.

(** [pub struct WakuNodeContext]: the native pointer and the closure in the
    [msg_observer] mutex. The native side keeps a pointer to that closure
    slot, so an event reaches whatever closure the slot holds. The mutex is
    only locked in [waku_set_event_callback], around a store, so it is never
    poisoned and the lock always succeeds. *)
Record WakuNodeContext := mk_context {
  obj_ptr : Z;
  msg_observer : LibwakuResponse -> outcome unit
}.

(** [fn panic_callback(_response: LibwakuResponse)] *)
Definition panic_callback (_ : LibwakuResponse) : outcome unit :=
  Panic "callback not set. Please use waku_set_event_callback to set a valid callback".

(** [pub fn waku_set_event_callback(&self, closure) -> Result<(), String>]:
    the closure replaces the one in the slot. *)
Definition waku_set_event_callback (ctx : WakuNodeContext)
    (closure : LibwakuResponse -> outcome unit) : WakuNodeContext * result unit string :=
  (mk_context (obj_ptr ctx) closure, Ok tt).

(** [pub fn new(obj_ptr) -> Self]: a do-nothing closure, at once replaced by
    [panic_callback]. *)
Definition new (ptr : Z) : outcome WakuNodeContext :=
  let me := mk_context ptr (fun _ => Returned tt) in
  match waku_set_event_callback me panic_callback with
  | (me', Ok _) => Returned me'
  | (_, Err e) => Panic ("correctly set default callback: " ++ e)
  end.

(** The native side delivering an event [(ret_code, data)]: the trampoline
    of the registered closure, on the current content of the slot. *)
Definition deliver_event (ctx : WakuNodeContext) (ret_code : Z) (data : option (list byte))
    : outcome unit :=
  match Trampoline.trampoline (fun r (_ : outcome unit) => msg_observer ctx r)
          ret_code data (Returned tt) with
  | Returned o => o
  | Panic m => Panic m
  end.

(** [node/management.rs], [pub async fn waku_new(config) -> Result<WakuNodeContext>]:
    the native [waku_new] returns the node pointer [obj_ptr] and completes
    through the callback. *)
Definition waku_new_response (obj_ptr : Z) (r : LibwakuResponse)
    : outcome (result WakuNodeContext string) :=
  match r with
  | MissingCallback => Panic "callback is required"
  | Failure v => Returned (Err v)
  | _ => match new obj_ptr with
         | Returned c => Returned (Ok c)
         | Panic m => Panic m
         end
  end.

Definition management_waku_new (obj_ptr : Z) (callback : option (Z * option (list byte)))
    : option (outcome (result WakuNodeContext string)) :=
  Ffi.handle_ffi_call waku_new_response obj_ptr callback.

End Context.

(** ** Splitting and joining on a separator *)
Module Text.

(** [str::split(sep)] for a character [sep]: the pieces between separators,
    the empty ones included; the empty text is one empty piece. *)
Fixpoint split (sep : ascii) (s : string) : list string :=
  match s with
  | EmptyString => [EmptyString]
  | String c rest =>
      let pieces := split sep rest in
      if Ascii.eqb c sep then EmptyString :: pieces
      else match pieces with
           | p :: ps => String c p :: ps
           | [] => [String c EmptyString]
           end
  end.

(** [<[String]>::join(sep)] *)
Fixpoint join (sep : string) (l : list string) : string :=
  match l with
  | [] => EmptyString
  | [x] => x
  | x :: rest => x ++ sep ++ join sep rest
  end.

Definition count_char (c : ascii) (s : string) : nat :=
  List.length (filter (Ascii.eqb c) (list_ascii_of_string s)).

Definition has_char (c : ascii) (s : string) : bool :=
  existsb (Ascii.eqb c) (list_ascii_of_string s).

End Text.

(** ** [WakuContentTopic::join_content_topics]: [general/contenttopic.rs] *)
Module TopicList.
Import ContentTopic.

Definition join_content_topics (topics : list WakuContentTopic) : string :=
  Text.join "," (map to_string topics).

End TopicList.

(** ** [impl WakuDecode for Vec<Multiaddr>]: [general/waku_decode.rs] and
    [node/management.rs] *)
Module Multiaddrs.

Section Decode.
(** [multiaddr::Multiaddr], [str::trim], and [s.parse::<Multiaddr>()] with
    its error rendered by [to_string]. *)
Variable Multiaddr : Type.
Variable trim : string -> string.
Variable parse_multiaddr : string -> result Multiaddr string.

(** [Iterator::collect::<Result<Vec<_>>>]: the first error, in order. *)
Fixpoint collect {A : Type} (l : list (result A string)) : result (list A) string :=
  match l with
  | [] => Ok []
  | Ok a :: rest =>
      match collect rest with
      | Ok r => Ok (a :: r)
      | Err e => Err e
      end
  | Err e :: _ => Err e
  end.

Definition decode (input : string) : result (list Multiaddr) string :=
  match collect (map (fun s => parse_multiaddr (trim s)) (Text.split "," input)) with
  | Ok l => Ok l
  | Err err => Err ("could not parse Multiaddr: " ++ err)
  end.
End Decode.

End Multiaddrs.

(** ** Serde of message hashes and events: [general/messagehash.rs] *)
Module HashSerde.
Import Events.

(** The derived [Serialize] of [MessageHash([u8; 32])] in [serde_json]: the
    newtype is its array, an array of numbers. *)
Definition serialize_hash (h : MessageHash.MessageHash) : Value :=
  VArray (map (fun b => VNumber (Z.of_N (Byte.to_N b))) h).

End HashSerde.

(** ** Peer count: [node/peers.rs] *)
Module PeerCount.

Definition U32_LIMIT : Z := 2 ^ 32.
(** [usize] on a 64-bit target. *)
Definition USIZE_LIMIT : Z := 2 ^ 64.

Definition digit_value (c : ascii) : option Z :=
  let n := nat_of_ascii c in
  if Nat.leb 48 n && Nat.leb n 57 then Some (Z.of_nat (n - 48)) else None.

(** The digit loop of [u32::from_str_radix(_, 10)], with its checked
    multiplication and addition. *)
Fixpoint digits_value (s : string) (acc : Z) : option Z :=
  match s with
  | EmptyString => Some acc
  | String c rest =>
      match digit_value c with
      | None => None
      | Some d =>
          let acc' := acc * 10 + d in
          if Z.ltb acc' U32_LIMIT then digits_value rest acc' else None
      end
  end.

(** [str::parse::<u32>]: not empty, one optional leading ["+"] that must be
    followed by digits, then decimal digits only. *)
Definition parse_u32 (s : string) : option Z :=
  match s with
  | EmptyString => None
  | String c rest =>
      if Ascii.eqb c "+" then
        match rest with
        | EmptyString => None
        | _ => digits_value rest 0
        end
      else if Ascii.eqb c "-" && String.eqb rest EmptyString then None
      else digits_value s 0
  end.

(** [pub fn waku_peer_count() -> Result<usize>]; [response] is the value of
    [decode_and_free_response::<String>] on the native answer. *)
Definition waku_peer_count (response : result string string) : result Z string :=
  match response with
  | Err e => Err e
  | Ok num_str =>
      match parse_u32 num_str with
      | None => Err "could not convert peer count into u32"
      | Some num =>
          if Z.ltb num USIZE_LIMIT then Ok num
          else Err "could not convert peer count into usize"
      end
  end.

End PeerCount.

(** ** Log levels: [node/config.rs] *)
Module LogLevel.

Inductive WakuLogLevel := Info | Debug | Warn | Error | DPanic | Panic_ | Fatal.

(** [impl Display for WakuLogLevel] *)
Definition to_string (l : WakuLogLevel) : string :=
  match l with
  | Info => "INFO"
  | Debug => "DEBUG"
  | Warn => "WARN"
  | Error => "ERROR"
  | DPanic => "DPANIC"
  | Panic_ => "PANIC"
  | Fatal => "FATAL"
  end.

Section Parse.
(** [str::to_lowercase] *)
Variable to_lowercase : string -> string.

(** [impl FromStr for WakuLogLevel] *)
Definition from_str (s : string) : result WakuLogLevel string :=
  let l := to_lowercase s in
  if String.eqb l "info" then Ok Info
  else if String.eqb l "debug" then Ok Debug
  else if String.eqb l "warn" then Ok Warn
  else if String.eqb l "error" then Ok Error
  else if String.eqb l "dpanic" then Ok DPanic
  else if String.eqb l "panic" then Ok Panic_
  else if String.eqb l "fatal" then Ok Fatal
  else Err ("Unrecognized waku log level: " ++ s ++ ". Allowed values "
            ++ Events.jstr "DEBUG" ++ ", " ++ Events.jstr "INFO" ++ ", "
            ++ Events.jstr "WARN" ++ ", " ++ Events.jstr "ERROR" ++ ", "
            ++ Events.jstr "DPANIC" ++ ", " ++ Events.jstr "PANIC" ++ ", "
            ++ Events.jstr "FATAL").
End Parse.

End LogLevel.

(** ** Auxiliary definitions used by the properties below *)
Module Aux.
Import Response.

(** A context after a sequence of [waku_set_event_callback] calls. *)
Definition register (ctx : Context.WakuNodeContext) (fs : list (LibwakuResponse -> outcome unit))
    : Context.WakuNodeContext :=
  fold_left (fun c g => fst (Context.waku_set_event_callback c g)) fs ctx.

(** The digit loop of [PeerCount.digits_value] without its overflow checks. *)
Fixpoint uvalue (s : string) (acc : Z) : option Z :=
  match s with
  | EmptyString => Some acc
  | String c rest =>
      match PeerCount.digit_value c with
      | None => None
      | Some d => uvalue rest (acc * 10 + d)
      end
  end.

(** The character map of [ContentTopic.ascii_to_lowercase]. *)
Definition lower_char (c : ascii) : ascii :=
  let n := nat_of_ascii c in
  if Nat.leb 65 n && Nat.leb n 90 then ascii_of_nat (n + 32) else c.

Definition is_upper_hex (c : ascii) : bool :=
  let n := nat_of_ascii c in
  (Nat.leb 48 n && Nat.leb n 57) || (Nat.leb 65 n && Nat.leb n 70).

(** A sample address parser: any non-empty text. *)
Definition nonempty_parse (s : string) : result string string :=
  if String.eqb s EmptyString then Err "empty" else Ok s.

End Aux.

(** * Properties *)

(** ** Sanity checks of the embedding *)

Example try_from_ok_empty : Response.try_from 0 "" = Ok (Response.Success None).
Proof. reflexivity. Qed.

Example try_from_unknown : Response.try_from 7 "x" = Err "undefined return code 7".
Proof. reflexivity. Qed.

Example utf8_two_byte : Trampoline.from_utf8 [x68; xc3; xa9] = true.
Proof. reflexivity. Qed.

Example utf8_truncated : Trampoline.from_utf8 [x68; xc3] = false.
Proof. reflexivity. Qed.

Example utf8_surrogate : Trampoline.from_utf8 [xed; xa0; x80] = false.
Proof. reflexivity. Qed.

Module ResponseFacts.
Import Response Trampoline.

Lemma decode_data_null : decode_data None = decode_data (Some []).
Proof. reflexivity. Qed.

Lemma decode_data_valid bs :
  from_utf8 bs = true -> decode_data (Some bs) = Returned (string_of_list_byte bs).
Proof. intros H. unfold decode_data. now rewrite H. Qed.

Lemma decode_data_invalid bs :
  from_utf8 bs = false -> decode_data (Some bs) = Panic "could not retrieve response".
Proof. intros H. unfold decode_data. now rewrite H. Qed.

Lemma string_of_list_byte_empty bs :
  string_of_list_byte bs = EmptyString <-> bs = [].
Proof.
  split.
  - destruct bs; [reflexivity | discriminate].
  - intros ->. reflexivity.
Qed.

Lemma try_from_ok text :
  try_from RET_OK text =
    Ok (Success (if String.eqb text EmptyString then None else Some text)).
Proof. reflexivity. Qed.

Lemma try_from_err text : try_from RET_ERR text = Ok (Failure ("waku error: " ++ text)).
Proof. reflexivity. Qed.

Lemma try_from_missing text : try_from RET_MISSING_CALLBACK text = Ok MissingCallback.
Proof. reflexivity. Qed.

Lemma try_from_other c text :
  c <> RET_OK -> c <> RET_ERR -> c <> RET_MISSING_CALLBACK ->
  try_from c text = Err ("undefined return code " ++ string_of_Z c).
Proof.
  intros H0 H1 H2. unfold try_from.
  rewrite (proj2 (Z.eqb_neq _ _) H0), (proj2 (Z.eqb_neq _ _) H1),
    (proj2 (Z.eqb_neq _ _) H2).
  reflexivity.
Qed.

End ResponseFacts.

(** C1: [handle_no_response(code, outcome)] is [Ok(())] on [Success] (with or
    without payload) and on [Undefined] when [code as u32] is the ok status;
    it is [Err(msg)] on [Failure(msg)]; it panics on [MissingCallback] and on
    [Undefined] with a non-ok code. *)
Theorem handle_no_response_classifies :
  (forall code v, Response.handle_no_response code (Response.Success v) = Returned (Ok tt)) /\
  (forall code, as_u32 code = Response.RET_OK ->
     Response.handle_no_response code Response.Undefined = Returned (Ok tt)) /\
  (forall code msg,
     Response.handle_no_response code (Response.Failure msg) = Returned (Err msg)) /\
  (forall code, exists m,
     Response.handle_no_response code Response.MissingCallback = Panic m) /\
  (forall code, as_u32 code <> Response.RET_OK ->
     exists m, Response.handle_no_response code Response.Undefined = Panic m).
Proof.
  unfold Response.handle_no_response.
  repeat split.
  - intros code v. destruct v; reflexivity.
  - intros code H. simpl. rewrite H. reflexivity.
  - intros code. eexists. reflexivity.
  - intros code H. simpl. rewrite (proj2 (Z.eqb_neq _ _) H). eexists. reflexivity.
Qed.

Lemma handle_no_response_classifies_witness :
  as_u32 0 = Response.RET_OK /\
  Response.handle_no_response 0 Response.Undefined = Returned (Ok tt).
Proof.
  split; [reflexivity |].
  apply (proj1 (proj2 handle_no_response_classifies)). reflexivity.
Defined.

(** C4 (as stated): a native error message [m] reaches the caller as [m]
    itself. It does not: [try_from] prefixes it with ["waku error: "]. *)
Lemma native_error_message_prefixed :
  Trampoline.trampoline Trampoline.result_cb 1 (Some [x62; x6f; x6f; x6d])
    Trampoline.new_slot
  = Returned (Trampoline.mk_slot (Response.Failure "waku error: boom") 1) /\
  Response.handle_no_response 1 (Response.Failure "waku error: boom")
  = Returned (Err "waku error: boom") /\
  "waku error: boom" <> "boom".
Proof. split; [reflexivity | split; [reflexivity | discriminate]]. Qed.

(** C4 (amended): when the native side reports the error status with the
    UTF-8 message [m], the completion slot holds [Failure("waku error: " ++ m)],
    and both [handle_no_response] and [handle_response] return exactly that
    string as the error, whatever the returned code. *)
Theorem native_error_message_propagation :
  forall (bs : list byte) (code : Z),
    Trampoline.from_utf8 bs = true ->
    let msg := "waku error: " ++ string_of_list_byte bs in
    Trampoline.trampoline Trampoline.result_cb 1 (Some bs) Trampoline.new_slot
      = Returned (Trampoline.mk_slot (Response.Failure msg) 1) /\
    Response.handle_no_response code (Response.Failure msg) = Returned (Err msg) /\
    (forall (F : Type) (decode : string -> result F string),
       Response.handle_response decode code (Response.Failure msg) = Returned (Err msg)).
Proof.
  intros bs code Hv msg.
  split; [| split].
  - unfold Trampoline.trampoline. rewrite (ResponseFacts.decode_data_valid bs Hv).
    reflexivity.
  - reflexivity.
  - reflexivity.
Qed.

Lemma native_error_message_propagation_witness :
  Trampoline.from_utf8 [x62; x6f; x6f; x6d] = true /\
  Response.handle_no_response 0 (Response.Failure "waku error: boom")
    = Returned (Err "waku error: boom").
Proof.
  split; [reflexivity |].
  exact (proj1 (proj2 (native_error_message_propagation [x62; x6f; x6f; x6d] 0
                          eq_refl))).
Defined.

(** C5: one invocation of the trampoline with [(ret_code, data, data_len)]
    decodes a null [data] as the empty string; with a well-formed UTF-8
    payload [text] it hands the closure [Success(None)] for the ok code and an
    empty text, [Success(Some(text))] for the ok code and a non-empty text, a
    [Failure] for the error code and [MissingCallback] for the missing-callback
    code, and panics on any other code; it panics on a payload that is not
    UTF-8. The closure is applied exactly once: a recording closure gains
    exactly one value and the call's slot is notified exactly once. *)
Theorem trampoline_classifies_once :
  forall (St : Type) (closure : Response.LibwakuResponse -> St -> St) (st : St) (code : Z),
    Trampoline.trampoline closure code None st
      = Trampoline.trampoline closure code (Some []) st /\
    (forall bs, Trampoline.from_utf8 bs = false ->
       exists m, Trampoline.trampoline closure code (Some bs) st = Panic m) /\
    (forall bs, Trampoline.from_utf8 bs = true ->
       (as_u32 code = Response.RET_OK -> bs = [] ->
          Trampoline.trampoline closure code (Some bs) st
            = Returned (closure (Response.Success None) st)) /\
       (as_u32 code = Response.RET_OK -> bs <> [] ->
          Trampoline.trampoline closure code (Some bs) st
            = Returned (closure (Response.Success (Some (string_of_list_byte bs))) st)) /\
       (as_u32 code = Response.RET_ERR -> exists m,
          Trampoline.trampoline closure code (Some bs) st
            = Returned (closure (Response.Failure m) st)) /\
       (as_u32 code = Response.RET_MISSING_CALLBACK ->
          Trampoline.trampoline closure code (Some bs) st
            = Returned (closure Response.MissingCallback st)) /\
       (as_u32 code <> Response.RET_OK -> as_u32 code <> Response.RET_ERR ->
        as_u32 code <> Response.RET_MISSING_CALLBACK ->
          exists m, Trampoline.trampoline closure code (Some bs) st = Panic m)) /\
    (forall data seen seen',
       Trampoline.trampoline Trampoline.recording_closure code data seen = Returned seen' ->
       exists r, seen' = (seen ++ [r])%list) /\
    (forall data s s',
       Trampoline.trampoline Trampoline.result_cb code data s = Returned s' ->
       Trampoline.notified s' = S (Trampoline.notified s)).
Proof.
  intros St closure st code.
  split; [reflexivity |].
  split; [| split; [| split]].
  - intros bs Hv. unfold Trampoline.trampoline.
    rewrite (ResponseFacts.decode_data_invalid bs Hv). eexists. reflexivity.
  - intros bs Hv.
    unfold Trampoline.trampoline. rewrite (ResponseFacts.decode_data_valid bs Hv).
    repeat split.
    + intros Hc ->. rewrite Hc. reflexivity.
    + intros Hc Hne. rewrite Hc, ResponseFacts.try_from_ok.
      destruct (String.eqb (string_of_list_byte bs) EmptyString) eqn:E.
      * apply String.eqb_eq, ResponseFacts.string_of_list_byte_empty in E.
        contradiction.
      * reflexivity.
    + intros Hc. rewrite Hc. eexists. reflexivity.
    + intros Hc. rewrite Hc. reflexivity.
    + intros H0 H1 H2. rewrite (ResponseFacts.try_from_other _ _ H0 H1 H2).
      eexists. reflexivity.
  - intros data seen seen'. unfold Trampoline.trampoline.
    destruct (Trampoline.decode_data data) as [text|m]; [| discriminate].
    destruct (Response.try_from (as_u32 code) text) as [r|e]; [| discriminate].
    intros H. injection H as <-. exists r. reflexivity.
  - intros data s s'. unfold Trampoline.trampoline.
    destruct (Trampoline.decode_data data) as [text|m]; [| discriminate].
    destruct (Response.try_from (as_u32 code) text) as [r|e]; [| discriminate].
    intros H. injection H as <-. reflexivity.
Qed.

Lemma trampoline_classifies_once_witness :
  Trampoline.from_utf8 [x68; xc3; xa9] = true /\
  Trampoline.trampoline Trampoline.recording_closure 0 (Some [x68; xc3; xa9]) []
    = Returned [Response.Success (Some (string_of_list_byte [x68; xc3; xa9]))].
Proof.
  split; [reflexivity |].
  refine (proj1 (proj2 (proj1 (proj2 (proj2
    (trampoline_classifies_once _ Trampoline.recording_closure [] 0)))
    [x68; xc3; xa9] eq_refl)) eq_refl _).
  discriminate.
Defined.

Module LifecycleFacts.
Import Lifecycle.

Lemma running_only_not_initialized m :
  running_only m = true -> available Initialized m = false.
Proof. destruct m; reflexivity || discriminate. Qed.

Lemma well_typed_trace_running h prog :
  well_typed h prog = true ->
  forall s m, In (s, m) (trace h prog) -> running_only m = true -> s = Running.
Proof.
  revert h. induction prog as [|m0 rest IH]; intros h Hwt s m Hin Hro.
  - destruct Hin.
  - destruct h as [s0|]; [| destruct Hin].
    simpl in Hwt. apply andb_prop in Hwt as [Ha Hrest].
    destruct Hin as [Heq|Hin].
    + injection Heq as <- <-.
      destruct s0; [| reflexivity].
      rewrite running_only_not_initialized in Ha by exact Hro. discriminate.
    + exact (IH _ Hrest s m Hin Hro).
Qed.

End LifecycleFacts.

(** C2 (as stated): listen-address enumeration, listed by the claim as a
    Running-only operation, cannot be called on an [Initialized] handle. It
    can: [listen_addresses] is in the generic [impl<State>] block. *)
Lemma listen_addresses_on_initialized :
  Lifecycle.spec_running_only Lifecycle.ListenAddresses = true /\
  Lifecycle.available Lifecycle.Initialized Lifecycle.ListenAddresses = true /\
  Lifecycle.well_typed (Some Lifecycle.Initialized) [Lifecycle.ListenAddresses] = true.
Proof. repeat split. Qed.

(** C2 (amended): in every program that type-checks against the handle's
    impl blocks, connect-to-peer, relay and lightpush publish, relay and
    filter subscribe/unsubscribe and store-query run only on a [Running]
    handle; [listen_addresses] (like [peer_id] and [add_peer]) is available in
    both states; [start] and [stop] take the handle by value. *)
Theorem running_only_operations_gated :
  (forall h prog, Lifecycle.well_typed h prog = true ->
     forall s m, In (s, m) (Lifecycle.trace h prog) ->
       Lifecycle.running_only m = true -> s = Lifecycle.Running) /\
  (forall s, Lifecycle.available s Lifecycle.ListenAddresses = true) /\
  Lifecycle.receiver Lifecycle.Start = Lifecycle.ByValue (Some Lifecycle.Running) /\
  Lifecycle.receiver Lifecycle.Stop = Lifecycle.ByValue None.
Proof.
  split; [exact LifecycleFacts.well_typed_trace_running |].
  split; [intros []; reflexivity |].
  split; reflexivity.
Qed.

Lemma running_only_operations_gated_witness :
  Lifecycle.well_typed (Some Lifecycle.Initialized)
    [Lifecycle.Start; Lifecycle.StoreQuery] = true /\
  Lifecycle.Running = Lifecycle.Running.
Proof.
  split; [reflexivity |].
  apply (proj1 running_only_operations_gated
           (Some Lifecycle.Initialized) [Lifecycle.Start; Lifecycle.StoreQuery]
           eq_refl Lifecycle.Running Lifecycle.StoreQuery).
  - simpl. right. left. reflexivity.
  - reflexivity.
Defined.

(** C3 (as stated): [stop()] on a [Running] handle returns an [Initialized]
    handle that can be started again. It returns [Result<()>]: no handle
    comes back, so nothing, [start] included, can follow on it. *)
Lemma stop_returns_no_handle :
  Lifecycle.receiver Lifecycle.Stop = Lifecycle.ByValue None /\
  Lifecycle.receiver Lifecycle.Stop <> Lifecycle.ByValue (Some Lifecycle.Initialized) /\
  Lifecycle.well_typed (Some Lifecycle.Running) [Lifecycle.Stop; Lifecycle.Start] = false.
Proof. split; [reflexivity | split; [discriminate | reflexivity]]. Qed.

(** C3 (amended): [stop()] on a [Running] handle consumes it and returns the
    native stop's [Result<()>] without a handle, so no further call can be
    made on it; it clears the process-wide node flag, so a node is started
    again only through a new [waku_new]. *)
Theorem stop_consumes_running_handle :
  Lifecycle.receiver Lifecycle.Stop = Lifecycle.ByValue None /\
  (forall prog, Lifecycle.well_typed (Some Lifecycle.Running) (Lifecycle.Stop :: prog) = true ->
     prog = []) /\
  (forall native p,
     Lifecycle.node_initialized (fst (Lifecycle.stop_node native p)) = false /\
     snd (Lifecycle.stop_node native p) = native).
Proof.
  split; [reflexivity |].
  split.
  - intros [|m rest] H; [reflexivity | discriminate].
  - intros native p. split; reflexivity.
Qed.

Lemma stop_consumes_running_handle_witness :
  Lifecycle.well_typed (Some Lifecycle.Running) [Lifecycle.Stop] = true /\
  @nil Lifecycle.Method = [].
Proof.
  split; [reflexivity |].
  exact (proj1 (proj2 stop_consumes_running_handle) [] eq_refl).
Defined.

Module ProcessFacts.
Import Lifecycle.

Lemma proc_run_news_rejected ops p :
  node_initialized p = true ->
  Forall (fun op => exists n, op = New n) ops ->
  proc_run ops p = (p, map (fun _ => Err "Waku node is already initialized") ops).
Proof.
  intros Hp Hops. induction Hops as [|op ops [n ->] _ IH]; [reflexivity |].
  simpl. unfold waku_new. rewrite Hp. rewrite IH. reflexivity.
Qed.

End ProcessFacts.

(** C10: while the process flag is set, [waku_new] returns
    ["Waku node is already initialized"] and creates no native node; a
    successful [waku_new] sets the flag, so every later [waku_new] before a
    stop fails that way; [stop_node] clears the flag, after which [waku_new]
    succeeds again when the native creation does. *)
Theorem single_node_per_process :
  (forall native p, Lifecycle.node_initialized p = true ->
     Lifecycle.waku_new native p = (p, Err "Waku node is already initialized")) /\
  (forall native p p' s, Lifecycle.waku_new native p = (p', Ok s) ->
     Lifecycle.node_initialized p' = true) /\
  (forall native p p1 ops,
     Lifecycle.waku_new native p = (p1, Ok Lifecycle.Initialized) ->
     Forall (fun op => exists n, op = Lifecycle.New n) ops ->
     Lifecycle.proc_run ops p1
       = (p1, map (fun _ => Err "Waku node is already initialized") ops)) /\
  (forall stop_native p,
     let p' := fst (Lifecycle.stop_node stop_native p) in
     Lifecycle.node_initialized p' = false /\
     Lifecycle.waku_new (Ok tt) p'
       = (Lifecycle.mk_process true (S (Lifecycle.native_created p)),
          Ok Lifecycle.Initialized)).
Proof.
  split; [| split; [| split]].
  - intros native p Hp. unfold Lifecycle.waku_new. rewrite Hp. reflexivity.
  - intros native p p' s H. unfold Lifecycle.waku_new in H.
    destruct (Lifecycle.node_initialized p); [discriminate |].
    injection H as <- _. reflexivity.
  - intros native p p1 ops H Hops.
    apply ProcessFacts.proc_run_news_rejected; [| exact Hops].
    unfold Lifecycle.waku_new in H.
    destruct (Lifecycle.node_initialized p); [discriminate |].
    injection H as <- _. reflexivity.
  - intros stop_native p. split; reflexivity.
Qed.

Lemma single_node_per_process_witness :
  Lifecycle.waku_new (Ok tt) (Lifecycle.mk_process false 0)
    = (Lifecycle.mk_process true 1, Ok Lifecycle.Initialized) /\
  Lifecycle.proc_run [Lifecycle.New (Ok tt); Lifecycle.New (Ok tt)]
      (Lifecycle.mk_process true 1)
    = (Lifecycle.mk_process true 1,
       [Err "Waku node is already initialized"; Err "Waku node is already initialized"]).
Proof.
  split; [reflexivity |].
  apply (proj1 (proj2 (proj2 single_node_per_process))
           (Ok tt) (Lifecycle.mk_process false 0)).
  - reflexivity.
  - repeat constructor; eexists; reflexivity.
Defined.

Module StoreFacts.
Import Store.

Lemma page_requests_length first prev rs :
  List.length (page_requests first prev rs) = List.length rs.
Proof.
  revert prev. induction rs as [|r rest IH]; intros prev; simpl; [reflexivity |].
  now rewrite IH.
Qed.

Lemma page_requests_cursor_only first prev rs q :
  In q (page_requests first prev rs) -> exists c, q = with_pagination_cursor first c.
Proof.
  revert prev. induction rs as [|r rest IH]; intros prev Hin; [destruct Hin |].
  destruct Hin as [<-|Hin]; [eexists; reflexivity | exact (IH _ Hin)].
Qed.

Lemma walk_pages rs : forall fuel native first n prev acc issued,
  cursor_chain rs = true ->
  serves native n (page_requests first prev rs) rs ->
  (List.length rs <= fuel)%nat ->
  walk fuel native first n prev acc issued
    = Some ((issued ++ page_requests first prev rs)%list,
            Ok (rev (acc ++ List.concat (map messages rs))%list)).
Proof.
  induction rs as [|r rest IH]; intros fuel native first n prev acc issued Hc Hs Hf.
  - discriminate.
  - destruct fuel as [|fuel']; [simpl in Hf; lia |].
    simpl in Hs. destruct Hs as [Hn Hs].
    simpl. rewrite Hn.
    destruct (response_cursor r) as [c|] eqn:Ec.
    + destruct rest as [|r2 rest']; [simpl in Hc; rewrite Ec in Hc; discriminate |].
      assert (Hc' : cursor_chain (r2 :: rest') = true).
      { simpl in Hc. rewrite Ec in Hc. exact Hc. }
      simpl in Hf.
      rewrite (IH fuel' native first (S n) (Some c) _ _ Hc' Hs ltac:(simpl; lia)).
      rewrite <- !app_assoc. reflexivity.
    + destruct rest as [|r2 rest'].
      * simpl. rewrite !app_nil_r. reflexivity.
      * simpl in Hc. rewrite Ec in Hc. discriminate.
Qed.

End StoreFacts.

(** C6 (spec-modelled walk): when the pages [rs] are chained by their cursors
    (present on every page but the last) and the native side answers the
    walk's requests with them, the walk issues exactly one request per page,
    the first without cursor and each next one equal to the first but for the
    cursor returned by the previous page, stops at the page without cursor,
    and returns the concatenated pages reversed. In particular three pages of
    two messages give three calls and the six messages last page first, and
    an empty first page without cursor gives one call and an empty result. *)
Theorem store_walk_pagination :
  (forall native first rs fuel,
     Store.cursor_chain rs = true ->
     Store.serves native 0 (Store.page_requests first None rs) rs ->
     (List.length rs <= fuel)%nat ->
     Store.store_query_walk fuel native first
       = Some (Store.page_requests first None rs,
               Ok (rev (List.concat (map Store.messages rs))))) /\
  (forall first prev rs,
     List.length (Store.page_requests first prev rs) = List.length rs /\
     (forall q, In q (Store.page_requests first prev rs) ->
        exists c, q = Store.with_pagination_cursor first c)) /\
  (forall native first r1 r2 r3 c1 c2 fuel,
     List.length (Store.messages r1) = 2%nat ->
     List.length (Store.messages r2) = 2%nat ->
     List.length (Store.messages r3) = 2%nat ->
     Store.response_cursor r1 = Some c1 ->
     Store.response_cursor r2 = Some c2 ->
     Store.response_cursor r3 = None ->
     native 0%nat (Store.with_pagination_cursor first None) = Ok r1 ->
     native 1%nat (Store.with_pagination_cursor first (Some c1)) = Ok r2 ->
     native 2%nat (Store.with_pagination_cursor first (Some c2)) = Ok r3 ->
     (3 <= fuel)%nat ->
     exists items,
       Store.store_query_walk fuel native first
         = Some ([Store.with_pagination_cursor first None;
                  Store.with_pagination_cursor first (Some c1);
                  Store.with_pagination_cursor first (Some c2)], Ok items) /\
       items = (rev (Store.messages r3) ++ rev (Store.messages r2)
                ++ rev (Store.messages r1))%list /\
       List.length items = 6%nat) /\
  (forall native first r fuel,
     Store.messages r = [] ->
     Store.response_cursor r = None ->
     native 0%nat (Store.with_pagination_cursor first None) = Ok r ->
     (1 <= fuel)%nat ->
     Store.store_query_walk fuel native first
       = Some ([Store.with_pagination_cursor first None], Ok [])).
Proof.
  split; [| split; [| split]].
  - intros native first rs fuel Hc Hs Hf.
    exact (StoreFacts.walk_pages rs fuel native first 0 None [] [] Hc Hs Hf).
  - intros first prev rs. split.
    + apply StoreFacts.page_requests_length.
    + apply StoreFacts.page_requests_cursor_only.
  - intros native first r1 r2 r3 c1 c2 fuel L1 L2 L3 E1 E2 E3 N1 N2 N3 Hf.
    assert (Hc : Store.cursor_chain [r1; r2; r3] = true).
    { simpl. now rewrite E1, E2, E3. }
    assert (Hs : Store.serves native 0 (Store.page_requests first None [r1; r2; r3])
                   [r1; r2; r3]).
    { simpl. rewrite E1, E2. auto. }
    unfold Store.store_query_walk.
    rewrite (StoreFacts.walk_pages [r1; r2; r3] fuel native first 0 None [] [] Hc Hs
               ltac:(simpl; lia)).
    simpl. rewrite E1, E2.
    eexists. split; [reflexivity |]. split.
    + rewrite app_nil_r, !rev_app_distr, app_assoc. reflexivity.
    + rewrite app_nil_r, length_rev, !length_app, L1, L2, L3. reflexivity.
  - intros native first r fuel Hm Hc Hn Hf.
    destruct fuel as [|fuel']; [lia |].
    unfold Store.store_query_walk. simpl. rewrite Hn, Hc, Hm. reflexivity.
Qed.

Lemma store_walk_pagination_witness :
  Store.cursor_chain [Store.example_page None;
                      Store.example_page (Some (Store.page_hash 1));
                      Store.example_page (Some (Store.page_hash 2))] = true /\
  Store.store_query_walk 3 Store.example_native Store.example_first
    = Some (Store.page_requests Store.example_first None
              [Store.example_page None;
               Store.example_page (Some (Store.page_hash 1));
               Store.example_page (Some (Store.page_hash 2))],
            Ok (rev (List.concat (map Store.messages
              [Store.example_page None;
               Store.example_page (Some (Store.page_hash 1));
               Store.example_page (Some (Store.page_hash 2))])))).
Proof.
  split; [reflexivity |].
  apply (proj1 store_walk_pagination).
  - reflexivity.
  - simpl. repeat split.
  - simpl. lia.
Defined.

Module StringFacts.

Lemma sappend_assoc (a b c : string) : (a ++ b) ++ c = a ++ (b ++ c).
Proof. induction a as [|x a IH]; simpl; [reflexivity | now rewrite IH]. Qed.

Lemma sappend_nil_r (a : string) : a ++ EmptyString = a.
Proof. induction a as [|x a IH]; simpl; [reflexivity | now rewrite IH]. Qed.

Lemma length_app (a b : string) :
  String.length (a ++ b) = (String.length a + String.length b)%nat.
Proof. induction a as [|c a IH]; simpl; [reflexivity | now rewrite IH]. Qed.

End StringFacts.

Module HashFacts.
Import MessageHash StringFacts.

Lemma fold_hex l acc :
  fold_left (fun output b => output ++ hex_byte b) l acc = acc ++ to_hex_string l.
Proof.
  unfold to_hex_string. revert acc.
  induction l as [|b l IH]; intros acc; simpl.
  - now rewrite sappend_nil_r.
  - rewrite (IH (acc ++ hex_byte b)), (IH (hex_byte b)). apply sappend_assoc.
Qed.

Lemma to_hex_string_cons b l : to_hex_string (b :: l) = hex_byte b ++ to_hex_string l.
Proof. unfold to_hex_string at 1. simpl. apply fold_hex. Qed.

Lemma from_hex_pairs_byte i b s :
  from_hex_pairs i (hex_byte b ++ s) =
  match from_hex_pairs (S (S i)) s with Ok bs => Ok (b :: bs) | Err e => Err e end.
Proof. destruct b; simpl; destruct (from_hex_pairs _ s); reflexivity. Qed.

Lemma from_hex_pairs_hex l s : forall i,
  from_hex_pairs i (to_hex_string l ++ s) =
  match from_hex_pairs (i + 2 * List.length l) s with
  | Ok bs => Ok (l ++ bs)%list
  | Err e => Err e
  end.
Proof.
  induction l as [|b l IH]; intros i.
  - simpl. rewrite Nat.add_0_r. destruct (from_hex_pairs i s); reflexivity.
  - rewrite to_hex_string_cons, sappend_assoc, from_hex_pairs_byte, IH.
    replace (S (S i) + 2 * List.length l)%nat with (i + 2 * List.length (b :: l))%nat
      by (simpl; lia).
    destruct (from_hex_pairs _ s); reflexivity.
Qed.

Lemma hex_byte_length b : String.length (hex_byte b) = 2%nat.
Proof. destruct b; reflexivity. Qed.

Lemma to_hex_string_length h : String.length (to_hex_string h) = (2 * List.length h)%nat.
Proof.
  induction h as [|b h IH]; [reflexivity |].
  rewrite to_hex_string_cons, length_app, IH, hex_byte_length. simpl. lia.
Qed.

Lemma odd_double n : Nat.odd (2 * n) = false.
Proof. rewrite Nat.odd_mul. reflexivity. Qed.

Lemma from_hex_to_hex l : from_hex (to_hex_string l) = Ok l.
Proof.
  unfold from_hex. rewrite to_hex_string_length, odd_double.
  pose proof (from_hex_pairs_hex l EmptyString 0) as H.
  rewrite sappend_nil_r in H. rewrite H. simpl. now rewrite app_nil_r.
Qed.

Lemma strip_0x_prefix s : strip_0x ("0x" ++ s) = s.
Proof. reflexivity. Qed.

Lemma strip_0x_hex_byte b s : strip_0x (hex_byte b ++ s) = hex_byte b ++ s.
Proof. destruct b; reflexivity. Qed.

Lemma strip_0x_to_hex l : strip_0x (to_hex_string l) = to_hex_string l.
Proof.
  destruct l as [|b l]; [reflexivity |].
  rewrite to_hex_string_cons. apply strip_0x_hex_byte.
Qed.

Lemma from_str_to_hex h :
  List.length h = 32%nat -> from_str (to_hex_string h) = Ok h.
Proof.
  intros Hl. unfold from_str.
  rewrite strip_0x_to_hex, from_hex_to_hex, Hl. reflexivity.
Qed.

End HashFacts.

Module TopicFacts.
Import ContentTopic StringFacts.

Lemma lazy_group_step {X : Type} acc c rest (k : string -> option X) :
  lazy_group acc (String c rest) k =
  if Ascii.eqb c newline then None
  else
    match rest with
    | String c2 rest' =>
        if Ascii.eqb c2 slash then
          match k rest' with
          | Some x => Some (acc ++ String c EmptyString, x)
          | None => lazy_group (acc ++ String c EmptyString) rest k
          end
        else lazy_group (acc ++ String c EmptyString) rest k
    | EmptyString => lazy_group (acc ++ String c EmptyString) rest k
    end.
Proof. reflexivity. Qed.

Lemma lazy_group_segment {X : Type} (a : string) : forall acc r (k : string -> option X) x,
  plain_segment a = true -> k r = Some x ->
  lazy_group acc (a ++ String slash r) k = Some (acc ++ a, x).
Proof.
  induction a as [|c a IH]; intros acc r k x Ha Hk; [discriminate |].
  unfold plain_segment in Ha. simpl in Ha.
  apply andb_prop in Ha as [Hc Hrest]. apply andb_prop in Hc as [Hs Hn].
  apply negb_true_iff in Hs, Hn.
  change (String c a ++ String slash r) with (String c (a ++ String slash r)).
  rewrite lazy_group_step, Hn.
  destruct a as [|c2 a'].
  - cbn [append]. rewrite Ascii.eqb_refl, Hk. reflexivity.
  - simpl in Hrest. apply andb_prop in Hrest as [Hc2 Hrest'].
    apply andb_prop in Hc2 as [Hs2 Hn2]. apply negb_true_iff in Hs2, Hn2.
    cbn [append]. rewrite Hs2.
    assert (Hseg : plain_segment (String c2 a') = true).
    { unfold plain_segment. simpl. now rewrite Hs2, Hn2, Hrest'. }
    change (String c2 (a' ++ String slash r)) with (String c2 a' ++ String slash r).
    rewrite (IH _ r k x Hseg Hk), sappend_assoc. reflexivity.
Qed.

Lemma last_group_segment e :
  negb (String.eqb e EmptyString) && no_newline e = true -> last_group e = Some e.
Proof. intros H. unfold last_group. now rewrite H. Qed.

Lemma scan_canonical a v n e :
  plain_segment a = true -> plain_segment v = true -> plain_segment n = true ->
  negb (String.eqb e EmptyString) && no_newline e = true ->
  scan ("/" ++ a ++ "/" ++ v ++ "/" ++ n ++ "/" ++ e) = Some (a, v, n, e).
Proof.
  intros Ha Hv Hn He. unfold scan. simpl.
  rewrite (lazy_group_segment a EmptyString _ _ (v, (n, e)) Ha).
  - reflexivity.
  - rewrite (lazy_group_segment v EmptyString _ _ (n, e) Hv); [reflexivity |].
    rewrite (lazy_group_segment n EmptyString _ _ e Hn); [reflexivity |].
    now apply last_group_segment.
Qed.

Lemma encoding_lowercase_stable lc e :
  lc e = e -> encoding_to_string (encoding_from_str lc e) = e.
Proof.
  intros H. unfold encoding_from_str. rewrite H.
  destruct (String.eqb_spec e "proto"); [now subst |].
  destruct (String.eqb_spec e "rlp"); [now subst |].
  destruct (String.eqb_spec e "rfc26"); [now subst |].
  reflexivity.
Qed.

End TopicFacts.

(** C7 (as stated): every content topic in the form
    [/{app}/{version}/{name}/{encoding}] renders back to itself. It does not
    when the encoding has upper-case letters: [Encoding::from_str]
    lower-cases it. *)
Lemma content_topic_uppercase_encoding :
  ContentTopic.from_str ContentTopic.ascii_to_lowercase "/toychat/2/huilong/PROTO"
    = Ok (ContentTopic.mk_topic "toychat" "2" "huilong" ContentTopic.Proto) /\
  ContentTopic.to_string (ContentTopic.mk_topic "toychat" "2" "huilong" ContentTopic.Proto)
    = "/toychat/2/huilong/proto" /\
  "/toychat/2/huilong/proto" <> "/toychat/2/huilong/PROTO".
Proof. split; [reflexivity | split; [reflexivity | discriminate]]. Qed.

(** C7 (amended): a content topic string [/{app}/{version}/{name}/{encoding}]
    whose segments are non-empty, have no ["/"] (but the encoding) and no line
    feed, and whose encoding is unchanged by [to_lowercase], parses and renders
    back to itself; and every 32-byte message hash converted to its hex string
    parses back to the same bytes. *)
Theorem topic_and_hash_roundtrip :
  (forall (lc : string -> string) a v n e,
     ContentTopic.plain_segment a = true ->
     ContentTopic.plain_segment v = true ->
     ContentTopic.plain_segment n = true ->
     negb (String.eqb e EmptyString) && ContentTopic.no_newline e = true ->
     lc e = e ->
     let s := "/" ++ a ++ "/" ++ v ++ "/" ++ n ++ "/" ++ e in
     exists t, ContentTopic.from_str lc s = Ok t /\ ContentTopic.to_string t = s) /\
  (forall h : MessageHash.MessageHash, List.length h = 32%nat ->
     MessageHash.from_str (MessageHash.to_hex_string h) = Ok h).
Proof.
  split.
  - intros lc a v n e Ha Hv Hn He Hlc s.
    exists (ContentTopic.mk_topic a v n (ContentTopic.encoding_from_str lc e)).
    split.
    + unfold ContentTopic.from_str, s.
      rewrite (TopicFacts.scan_canonical a v n e Ha Hv Hn He). reflexivity.
    + unfold ContentTopic.to_string, s. simpl.
      rewrite (TopicFacts.encoding_lowercase_stable lc e Hlc). reflexivity.
  - exact HashFacts.from_str_to_hex.
Qed.

Lemma topic_and_hash_roundtrip_witness :
  ContentTopic.plain_segment "toychat" = true /\
  (exists t,
     ContentTopic.from_str ContentTopic.ascii_to_lowercase "/toychat/2/huilong/proto" = Ok t /\
     ContentTopic.to_string t = "/toychat/2/huilong/proto") /\
  MessageHash.from_str (MessageHash.to_hex_string (repeat xab 32)) = Ok (repeat xab 32).
Proof.
  split; [reflexivity |]. split.
  - exact (proj1 topic_and_hash_roundtrip ContentTopic.ascii_to_lowercase
             "toychat" "2" "huilong" "proto" eq_refl eq_refl eq_refl eq_refl eq_refl).
  - apply (proj2 topic_and_hash_roundtrip). reflexivity.
Defined.

Module EventFacts.
Import Response Events.

Lemma lookup_cons_other k v fields :
  k <> "eventType" -> lookup "eventType" ((k, v) :: fields) = lookup "eventType" fields.
Proof.
  intros Hk. cbn [lookup].
  now rewrite (proj2 (String.eqb_neq _ _) (not_eq_sym Hk)).
Qed.

Lemma split_tag_pre pre : forall rest content,
  lookup "eventType" pre = None ->
  split_tag (pre ++ rest) None content = split_tag rest None (content ++ pre)%list.
Proof.
  induction pre as [|[k v] pre IH]; intros rest content Hl.
  - now rewrite app_nil_r.
  - cbn [app split_tag].
    destruct (String.eqb_spec k "eventType") as [->|Hk].
    + cbn [lookup] in Hl. rewrite String.eqb_refl in Hl. discriminate Hl.
    + rewrite lookup_cons_other in Hl by exact Hk.
      rewrite IH by exact Hl. now rewrite <- app_assoc.
Qed.

Lemma split_tag_rest t rest : forall content,
  lookup "eventType" rest = None ->
  split_tag rest (Some t) content = Ok (Some t, (content ++ rest)%list).
Proof.
  induction rest as [|[k v] rest IH]; intros content Hl.
  - now rewrite app_nil_r.
  - cbn [split_tag].
    destruct (String.eqb_spec k "eventType") as [->|Hk].
    + cbn [lookup] in Hl. rewrite String.eqb_refl in Hl. discriminate Hl.
    + rewrite lookup_cons_other in Hl by exact Hk.
      rewrite IH by exact Hl. now rewrite <- app_assoc.
Qed.

Lemma decode_unknown_tag lc b64 pre tag post :
  lookup "eventType" pre = None -> tag <> "message" -> tag <> "unrecognized" ->
  decode_event lc b64 (VObject (pre ++ ("eventType", VString tag) :: post))
    = Err (UnknownVariant tag EVENT_VARIANTS).
Proof.
  intros Hl H1 H2. unfold decode_event.
  rewrite split_tag_pre by exact Hl. cbn [split_tag]. rewrite String.eqb_refl.
  unfold event_tag.
  now rewrite (proj2 (String.eqb_neq _ _) H1), (proj2 (String.eqb_neq _ _) H2).
Qed.

Lemma decode_unrecognized lc b64 pre post :
  lookup "eventType" pre = None -> lookup "eventType" post = None ->
  decode_event lc b64 (VObject (pre ++ ("eventType", VString "unrecognized") :: post))
    = Ok (Unrecognized (VObject (pre ++ post))).
Proof.
  intros Hpre Hpost. unfold decode_event.
  rewrite split_tag_pre by exact Hpre. cbn [split_tag]. rewrite String.eqb_refl.
  replace (event_tag (VString "unrecognized")) with (Ok TagUnrecognized : result EventTag DeError)
    by reflexivity.
  rewrite split_tag_rest by exact Hpost. reflexivity.
Qed.

End EventFacts.

(** C8 (as stated): an event whose tag is none of the known kinds decodes to
    [Unrecognized] and its dispatch does not panic. The code does otherwise:
    the tag ["topicHealthChange"] is an unknown variant of the internally
    tagged enum, so decoding fails and the callback panics on its
    [expect]; an event that does decode to [Unrecognized] (tag
    ["unrecognized"]) makes the callback panic too. *)
Lemma unknown_event_kind_fails :
  let health := Events.VObject [("eventType", Events.VString "topicHealthChange");
                                ("pubsubTopic", Events.VString "/waku/2/rs/0/0")] in
  let text := "{" ++ Events.jstr "eventType" ++ ":" ++ Events.jstr "topicHealthChange"
              ++ "," ++ Events.jstr "pubsubTopic" ++ ":" ++ Events.jstr "/waku/2/rs/0/0"
              ++ "}" in
  let text2 := "{" ++ Events.jstr "eventType" ++ ":" ++ Events.jstr "unrecognized" ++ "}" in
  Events.flat_json text = Some health /\
  (forall lc b64, Events.decode_event lc b64 health
     = Err (Events.UnknownVariant "topicHealthChange" ["message"; "unrecognized"])) /\
  (forall lc b64 dbg vdbg,
     Events.waku_event_callback Events.flat_json lc b64 dbg vdbg (Response.Success (Some text))
       = Panic ("Parsing event to succeed: "
                ++ dbg text (Events.Data (Events.UnknownVariant "topicHealthChange"
                                            ["message"; "unrecognized"])))) /\
  (forall lc b64, Events.event_from_str Events.flat_json lc b64 text2
     = Ok (Events.Unrecognized (Events.VObject []))) /\
  (forall lc b64 dbg vdbg,
     Events.waku_event_callback Events.flat_json lc b64 dbg vdbg (Response.Success (Some text2))
       = Panic ("Unrecognized waku event: " ++ vdbg (Events.VObject []))).
Proof. cbv zeta. repeat split; intros; vm_compute; reflexivity. Qed.

Module TimeoutFacts.
Import Timeout.

Lemma as_millis_nonneg d : valid_duration d -> 0 <= as_millis d.
Proof.
  intros [Hs Hn]. unfold as_millis.
  pose proof (Z.div_pos (nanos d) 1000000 ltac:(lia) ltac:(lia)). lia.
Qed.

Lemma try_into_i32_fits x : 0 <= x <= I32_MAX -> try_into_i32 x = Ok x.
Proof.
  intros H. unfold try_into_i32, I32_MAX in *.
  rewrite (proj2 (Z.leb_le _ _)) by lia. rewrite (proj2 (Z.leb_le _ _)) by lia.
  reflexivity.
Qed.

Lemma try_into_i32_over x : I32_MAX < x -> try_into_i32 x = Err tt.
Proof.
  intros H. unfold try_into_i32, I32_MAX in *.
  rewrite (proj2 (Z.leb_gt x (2 ^ 31 - 1))) by lia. rewrite andb_false_r.
  reflexivity.
Qed.

End TimeoutFacts.

(** C9 (as stated): every timeout is clamped to the i32 range and the
    conversion never aborts. The relay, lightpush, filter, discovery and
    legacy-filter calls [expect] the value to fit and panic otherwise; only
    the connect-to-peer calls clamp. *)
Lemma timeout_overflow_panics :
  Timeout.as_millis (Timeout.mk_duration 2147484 0) = 2147484000 /\
  Timeout.legacy_filter_timeout (Timeout.mk_duration 2147484 0)
    = Panic "Duration as milliseconds should fit in a i32" /\
  Timeout.expect_timeout (Some (Timeout.mk_duration 2147484 0))
    = Panic "Duration as milliseconds should fit in a i32" /\
  Timeout.connect_timeout (Some (Timeout.mk_duration 2147484 0)) = Timeout.I32_MAX.
Proof. repeat split. Qed.

(** C9 (amended): for every duration, the connect-to-peer calls pass its
    milliseconds when they fit in an [i32] and [i32::MAX] otherwise; the
    relay, lightpush, filter, discovery and legacy-filter calls pass its
    milliseconds when they fit and panic otherwise; an absent timeout is
    passed as 0. *)
Theorem timeout_conversion :
  Timeout.connect_timeout None = 0 /\
  Timeout.expect_timeout None = Returned 0 /\
  (forall d, Timeout.valid_duration d ->
     Timeout.connect_timeout (Some d) = Z.min (Timeout.as_millis d) Timeout.I32_MAX /\
     (Timeout.as_millis d <= Timeout.I32_MAX ->
        Timeout.expect_timeout (Some d) = Returned (Timeout.as_millis d) /\
        Timeout.legacy_filter_timeout d = Returned (Timeout.as_millis d)) /\
     (Timeout.I32_MAX < Timeout.as_millis d ->
        exists msg, Timeout.expect_timeout (Some d) = Panic msg /\
                    Timeout.legacy_filter_timeout d = Panic msg)).
Proof.
  split; [reflexivity | split; [reflexivity |]].
  intros d Hd. pose proof (TimeoutFacts.as_millis_nonneg d Hd) as H0.
  unfold Timeout.connect_timeout, Timeout.expect_timeout, Timeout.legacy_filter_timeout.
  destruct (Z_le_gt_dec (Timeout.as_millis d) Timeout.I32_MAX) as [Hle|Hgt].
  - rewrite (TimeoutFacts.try_into_i32_fits _ (conj H0 Hle)).
    split; [lia |]. split; [auto | intros; lia].
  - rewrite (TimeoutFacts.try_into_i32_over _ (Z.gt_lt _ _ Hgt)).
    split; [lia |]. split; [intros; lia |].
    intros _. eexists. split; reflexivity.
Qed.

Lemma timeout_conversion_witness :
  Timeout.valid_duration (Timeout.mk_duration 3 500000000) /\
  Timeout.connect_timeout (Some (Timeout.mk_duration 3 500000000))
    = Z.min (Timeout.as_millis (Timeout.mk_duration 3 500000000)) Timeout.I32_MAX.
Proof.
  assert (Hv : Timeout.valid_duration (Timeout.mk_duration 3 500000000)).
  { unfold Timeout.valid_duration; simpl; lia. }
  split; [exact Hv |].
  exact (proj1 (proj2 (proj2 timeout_conversion) _ Hv)).
Defined.

(** * Further properties of the bindings *)

Module FfiFacts.
Import Response Trampoline.

Lemma try_from_shape c text r :
  try_from c text = Ok r ->
  (c = RET_OK /\ r = Success (if String.eqb text EmptyString then None else Some text)) \/
  (c = RET_ERR /\ r = Failure ("waku error: " ++ text)) \/
  (c = RET_MISSING_CALLBACK /\ r = MissingCallback).
Proof.
  unfold try_from.
  destruct (Z.eqb_spec c RET_OK) as [->|H0]; [intros [= <-]; now left |].
  destruct (Z.eqb_spec c RET_ERR) as [->|H1]; [intros [= <-]; now right; left |].
  destruct (Z.eqb_spec c RET_MISSING_CALLBACK) as [->|H2];
    [intros [= <-]; now right; right | discriminate].
Qed.

Lemma trampoline_result_cb rc data :
  (exists m, trampoline result_cb rc data new_slot = Panic m) \/
  (exists r text, decode_data data = Returned text /\ try_from (as_u32 rc) text = Ok r /\
     trampoline result_cb rc data new_slot = Returned (mk_slot r 1)).
Proof.
  unfold trampoline.
  destruct (decode_data data) as [text|m]; [| left; eauto].
  destruct (try_from (as_u32 rc) text) as [r|e] eqn:E; [| left; eauto].
  right. exists r, text. auto.
Qed.

Lemma handle_ffi_call_some {C R : Type} (h : C -> LibwakuResponse -> outcome R) ret rc data r text :
  decode_data data = Returned text -> try_from (as_u32 rc) text = Ok r ->
  Ffi.handle_ffi_call h ret (Some (rc, data)) = Some (h ret r).
Proof.
  intros Hd Ht. unfold Ffi.handle_ffi_call, trampoline. rewrite Hd, Ht. reflexivity.
Qed.

Lemma handle_ffi_call_ok {C R : Type} (h : C -> LibwakuResponse -> outcome R) ret rc data text :
  as_u32 rc = RET_OK -> decode_data data = Returned text ->
  Ffi.handle_ffi_call h ret (Some (rc, data))
    = Some (h ret (Success (if String.eqb text EmptyString then None else Some text))).
Proof.
  intros Hr Hd. apply (handle_ffi_call_some _ _ _ _ _ text Hd).
  rewrite Hr. apply ResponseFacts.try_from_ok.
Qed.

Lemma handle_ffi_call_err {C R : Type} (h : C -> LibwakuResponse -> outcome R) ret rc data text :
  as_u32 rc = RET_ERR -> decode_data data = Returned text ->
  Ffi.handle_ffi_call h ret (Some (rc, data)) = Some (h ret (Failure ("waku error: " ++ text))).
Proof.
  intros Hr Hd. apply (handle_ffi_call_some _ _ _ _ _ text Hd).
  rewrite Hr. apply ResponseFacts.try_from_err.
Qed.

Lemma handle_ffi_call_missing {C R : Type} (h : C -> LibwakuResponse -> outcome R) ret rc data text :
  as_u32 rc = RET_MISSING_CALLBACK -> decode_data data = Returned text ->
  Ffi.handle_ffi_call h ret (Some (rc, data)) = Some (h ret MissingCallback).
Proof.
  intros Hr Hd. apply (handle_ffi_call_some _ _ _ _ _ text Hd).
  rewrite Hr. apply ResponseFacts.try_from_missing.
Qed.

End FfiFacts.

Module ContextFacts.
Import Response Trampoline Context Aux.

Lemma register_ptr fs : forall ctx, obj_ptr (register ctx fs) = obj_ptr ctx.
Proof. induction fs as [|f fs IH]; intros ctx; [reflexivity | etransitivity; [apply IH | reflexivity]]. Qed.

Lemma register_last fs f ctx :
  register ctx (fs ++ [f]) = mk_context (obj_ptr ctx) f.
Proof.
  unfold register. rewrite fold_left_app. simpl.
  change (fold_left _ fs ctx) with (register ctx fs). now rewrite register_ptr.
Qed.

Lemma deliver_panic_callback ptr rc data :
  exists m, deliver_event (mk_context ptr panic_callback) rc data = Panic m.
Proof.
  unfold deliver_event, trampoline.
  destruct (decode_data data) as [text|m]; [| eauto].
  destruct (try_from (as_u32 rc) text); eexists; reflexivity.
Qed.

Lemma deliver_success ptr f rc bs :
  from_utf8 bs = true -> as_u32 rc = RET_OK -> bs <> [] ->
  deliver_event (mk_context ptr f) rc (Some bs) = f (Success (Some (string_of_list_byte bs))).
Proof.
  intros Hu Hr Hne. unfold deliver_event, trampoline.
  rewrite (ResponseFacts.decode_data_valid _ Hu), Hr, ResponseFacts.try_from_ok.
  destruct (String.eqb_spec (string_of_list_byte bs) EmptyString) as [E|E].
  - apply ResponseFacts.string_of_list_byte_empty in E. contradiction.
  - reflexivity.
Qed.

Lemma deliver_decoded ptr f rc data text r :
  decode_data data = Returned text -> try_from (as_u32 rc) text = Ok r ->
  deliver_event (mk_context ptr f) rc data = f r.
Proof. intros Hd Ht. unfold deliver_event, trampoline. now rewrite Hd, Ht. Qed.

End ContextFacts.

Module TextFacts.
Import Text.

Lemma has_char_cons sep c s :
  has_char sep (String c s) = Ascii.eqb sep c || has_char sep s.
Proof. reflexivity. Qed.

Lemma split_no_sep sep x : has_char sep x = false -> split sep x = [x].
Proof.
  induction x as [|c x IH]; intros H; [reflexivity |].
  rewrite has_char_cons in H. apply orb_false_iff in H as [Hc Hx].
  simpl. rewrite Ascii.eqb_sym, Hc, (IH Hx). reflexivity.
Qed.

Lemma split_app_sep sep x y :
  has_char sep x = false -> split sep (x ++ String sep y) = x :: split sep y.
Proof.
  induction x as [|c x IH]; intros H.
  - simpl. now rewrite Ascii.eqb_refl.
  - rewrite has_char_cons in H. apply orb_false_iff in H as [Hc Hx].
    simpl. rewrite Ascii.eqb_sym, Hc, (IH Hx). reflexivity.
Qed.

Lemma split_join sep l :
  l <> [] -> Forall (fun x => has_char sep x = false) l ->
  split sep (join (String sep EmptyString) l) = l.
Proof.
  intros Hne Hl. induction Hl as [|x l Hx Hl IH]; [contradiction |].
  destruct l as [|y l].
  - simpl. now apply split_no_sep.
  - change (join (String sep EmptyString) (x :: y :: l))
      with (x ++ String sep (join (String sep EmptyString) (y :: l))).
    rewrite (split_app_sep _ _ _ Hx), IH; [reflexivity | discriminate].
Qed.

Lemma count_char_cons sep c s :
  count_char sep (String c s) = ((if Ascii.eqb sep c then 1 else 0) + count_char sep s)%nat.
Proof. unfold count_char. simpl. now destruct (Ascii.eqb sep c). Qed.

Lemma split_length sep s : List.length (split sep s) = S (count_char sep s).
Proof.
  induction s as [|c s IH]; [reflexivity |].
  rewrite count_char_cons, Ascii.eqb_sym. simpl.
  destruct (Ascii.eqb c sep); simpl; [now rewrite IH |].
  destruct (split sep s) as [|p ps]; [discriminate | exact IH].
Qed.

End TextFacts.

Module MultiaddrFacts.
Import Multiaddrs.

Lemma collect_map_ok {A B : Type} (g : A -> result B string) l : forall r,
  collect (map g l) = Ok r -> Forall2 (fun x b => g x = Ok b) l r.
Proof.
  induction l as [|x l IH]; intros r; simpl.
  - intros [= <-]. constructor.
  - destruct (g x) as [b|e] eqn:Eg; [| discriminate].
    destruct (collect (map g l)) as [r'|e] eqn:Ec; [| discriminate].
    intros [= <-]. constructor; [exact Eg | now apply IH].
Qed.

Lemma collect_map_err {A B : Type} (g : A -> result B string) l e :
  collect (map g l) = Err e ->
  exists pre x post, l = (pre ++ x :: post)%list /\
    Forall (fun p => exists b, g p = Ok b) pre /\ g x = Err e.
Proof.
  induction l as [|x l IH]; simpl; [discriminate |].
  destruct (g x) as [b|e'] eqn:Eg.
  - destruct (collect (map g l)) as [r'|e'] eqn:Ec; [discriminate |].
    intros [= ->]. destruct (IH eq_refl) as [pre [y [post [-> [Hpre Hy]]]]].
    exists (x :: pre), y, post. split; [reflexivity |]. split; [| exact Hy].
    constructor; eauto.
  - intros [= ->]. exists [], x, l. split; [reflexivity |]. split; [constructor | exact Eg].
Qed.

End MultiaddrFacts.

Module SerdeFacts.
Import Events HashSerde.

Lemma de_bytes_serialized h :
  de_bytes (map (fun b => VNumber (Z.of_N (Byte.to_N b))) h) = Ok h.
Proof.
  induction h as [|b h IH]; [reflexivity |].
  cbn [map de_bytes]. unfold de_u8.
  pose proof (Byte.to_N_bounded b) as Hb.
  rewrite (proj2 (Z.ltb_ge _ _)) by lia. rewrite (proj2 (Z.leb_le _ _)) by lia.
  rewrite N2Z.id, Byte.of_to_N, IH. reflexivity.
Qed.

Lemma decode_hash_serialized h :
  decode_hash (serialize_hash h) =
  if Nat.eqb (List.length h) 32 then Ok h else Err (Custom "Expected an array of length 32").
Proof. unfold decode_hash, serialize_hash. now rewrite de_bytes_serialized. Qed.

End SerdeFacts.

Module MessageFacts.
Import Events General.




End MessageFacts.

Module HexFacts.
Import MessageHash ContentTopic StringFacts Aux.

Lemma lower_cons c s :
  ascii_to_lowercase (String c s) = String (lower_char c) (ascii_to_lowercase s).
Proof. reflexivity. Qed.

Lemma lower_app a b : ascii_to_lowercase (a ++ b) = ascii_to_lowercase a ++ ascii_to_lowercase b.
Proof.
  induction a as [|c a IH]; [reflexivity |].
  change (String c a ++ b) with (String c (a ++ b)).
  rewrite !lower_cons, IH. reflexivity.
Qed.

Lemma from_hex_pairs_lower_byte i b s :
  from_hex_pairs i (ascii_to_lowercase (hex_byte b) ++ s) =
  match from_hex_pairs (S (S i)) s with Ok bs => Ok (b :: bs) | Err e => Err e end.
Proof. destruct b; simpl; destruct (from_hex_pairs _ s); reflexivity. Qed.

Lemma lower_length s : String.length (ascii_to_lowercase s) = String.length s.
Proof.
  induction s as [|c s IH]; [reflexivity |].
  rewrite lower_cons. simpl. now rewrite IH.
Qed.

Lemma from_hex_pairs_lower l : forall i,
  from_hex_pairs i (ascii_to_lowercase (to_hex_string l)) = Ok l.
Proof.
  induction l as [|b l IH]; intros i; [reflexivity |].
  rewrite HashFacts.to_hex_string_cons, lower_app, from_hex_pairs_lower_byte, IH.
  reflexivity.
Qed.

Lemma strip_0x_lower_byte b s :
  strip_0x (ascii_to_lowercase (hex_byte b) ++ s) = ascii_to_lowercase (hex_byte b) ++ s.
Proof. destruct b; reflexivity. Qed.

Lemma from_hex_lower l : from_hex (ascii_to_lowercase (to_hex_string l)) = Ok l.
Proof.
  unfold from_hex. rewrite lower_length, HashFacts.to_hex_string_length, HashFacts.odd_double.
  apply from_hex_pairs_lower.
Qed.

Lemma strip_0x_lower l :
  strip_0x (ascii_to_lowercase (to_hex_string l)) = ascii_to_lowercase (to_hex_string l).
Proof.
  destruct l as [|b l]; [reflexivity |].
  rewrite HashFacts.to_hex_string_cons, lower_app. apply strip_0x_lower_byte.
Qed.



Lemma list_ascii_app (a b : string) :
  list_ascii_of_string (a ++ b) = (list_ascii_of_string a ++ list_ascii_of_string b)%list.
Proof. induction a as [|c a IH]; simpl; [reflexivity | now rewrite IH]. Qed.

Lemma hex_byte_digits b : forallb is_upper_hex (list_ascii_of_string (hex_byte b)) = true.
Proof. destruct b; reflexivity. Qed.

Lemma to_hex_string_digits h :
  forallb is_upper_hex (list_ascii_of_string (to_hex_string h)) = true.
Proof.
  induction h as [|b h IH]; [reflexivity |].
  rewrite HashFacts.to_hex_string_cons, list_ascii_app, forallb_app, hex_byte_digits, IH.
  reflexivity.
Qed.



End HexFacts.

Module TopicParseFacts.
Import ContentTopic StringFacts.

Lemma no_newline_app a b : no_newline (a ++ b) = no_newline a && no_newline b.
Proof. unfold no_newline. now rewrite HexFacts.list_ascii_app, forallb_app. Qed.

Lemma no_newline_cons c r :
  no_newline (String c r) = negb (Ascii.eqb c newline) && no_newline r.
Proof. reflexivity. Qed.

Lemma lazy_group_sound {X : Type} (k : string -> option X) s : forall acc x y,
  lazy_group acc s k = Some (x, y) ->
  exists p r, s = p ++ String slash r /\ x = acc ++ p /\ p <> EmptyString /\
              no_newline p = true /\ k r = Some y.
Proof.
  induction s as [|c rest IH]; intros acc x y H; [discriminate |].
  rewrite TopicFacts.lazy_group_step in H.
  destruct (Ascii.eqb c newline) eqn:Hc; [discriminate |].
  assert (Hrec : lazy_group (acc ++ String c EmptyString) rest k = Some (x, y) ->
    exists p r, String c rest = p ++ String slash r /\ x = acc ++ p /\ p <> EmptyString /\
                no_newline p = true /\ k r = Some y).
  { intros H'. destruct (IH _ _ _ H') as [p [r [Hs [Hx [Hp [Hn Hk]]]]]].
    exists (String c p), r. split; [now rewrite Hs |]. split.
    - rewrite Hx, sappend_assoc. reflexivity.
    - split; [discriminate |]. split; [| exact Hk].
      unfold no_newline in *. simpl. now rewrite Hc, Hn. }
  destruct rest as [|c2 rest']; [exact (Hrec H) |].
  destruct (Ascii.eqb c2 slash) eqn:Hs; [| exact (Hrec H)].
  destruct (k rest') as [x'|] eqn:Hk; [| exact (Hrec H)].
  injection H as <- <-. apply Ascii.eqb_eq in Hs. subst c2.
  exists (String c EmptyString), rest'. split; [reflexivity |]. split; [reflexivity |].
  split; [discriminate |]. split; [| exact Hk].
  unfold no_newline. simpl. now rewrite Hc.
Qed.

Lemma last_group_sound r e :
  last_group r = Some e -> e = r /\ e <> EmptyString /\ no_newline e = true.
Proof.
  unfold last_group. destruct (negb (String.eqb r EmptyString) && no_newline r) eqn:H;
    [| discriminate].
  intros [= <-]. apply andb_prop in H as [H1 H2]. apply negb_true_iff in H1.
  split; [reflexivity |]. split; [| exact H2].
  intros E. subst. discriminate.
Qed.

End TopicParseFacts.

Module PeerFacts.
Import PeerCount StringFacts Aux.

Lemma digit_value_range c d : digit_value c = Some d -> 0 <= d <= 9.
Proof.
  unfold digit_value.
  destruct (Nat.leb 48 (nat_of_ascii c) && Nat.leb (nat_of_ascii c) 57) eqn:H;
    [| discriminate].
  intros [= <-]. apply andb_prop in H as [H1 H2]. apply Nat.leb_le in H1, H2. lia.
Qed.

Lemma uvalue_mono s : forall acc r, 0 <= acc -> uvalue s acc = Some r -> acc <= r.
Proof.
  induction s as [|c s IH]; intros acc r Ha H; simpl in H.
  - injection H as <-. lia.
  - destruct (digit_value c) as [d|] eqn:Hd; [| discriminate].
    pose proof (digit_value_range _ _ Hd).
    pose proof (IH (acc * 10 + d) r ltac:(lia) H). lia.
Qed.

Lemma checked_of_unchecked s : forall acc r,
  0 <= acc -> uvalue s acc = Some r -> r < U32_LIMIT -> digits_value s acc = Some r.
Proof.
  induction s as [|c s IH]; intros acc r Ha H Hr; simpl in H |- *; [exact H |].
  destruct (digit_value c) as [d|] eqn:Hd; [| discriminate].
  pose proof (digit_value_range _ _ Hd).
  pose proof (uvalue_mono s (acc * 10 + d) r ltac:(lia) H).
  replace (Z.ltb (acc * 10 + d) U32_LIMIT) with true by (symmetry; apply Z.ltb_lt; lia).
  apply IH; [lia | exact H | exact Hr].
Qed.

Lemma unchecked_of_checked s : forall acc r,
  acc < U32_LIMIT -> digits_value s acc = Some r -> uvalue s acc = Some r /\ r < U32_LIMIT.
Proof.
  induction s as [|c s IH]; intros acc r Ha H; simpl in H |- *.
  - injection H as <-. auto.
  - destruct (digit_value c) as [d|]; [| discriminate].
    destruct (Z.ltb_spec (acc * 10 + d) U32_LIMIT); [| discriminate].
    now apply IH.
Qed.

Lemma uvalue_app a : forall b v,
  uvalue (a ++ b) v = match uvalue a v with Some w => uvalue b w | None => None end.
Proof.
  induction a as [|c a IH]; intros b v; [reflexivity |].
  simpl. destruct (digit_value c); [apply IH | reflexivity].
Qed.

Lemma digit_value_of_nat d :
  (d < 10)%nat -> digit_value (ascii_of_nat (48 + d)) = Some (Z.of_nat d).
Proof.
  intros H.
  do 10 (destruct d as [|d]; [reflexivity |]). lia.
Qed.

Lemma digits_of_nat_step fuel m acc :
  digits_of_nat (S fuel) m acc =
  if Nat.ltb m 10 then String (ascii_of_nat (48 + Nat.modulo m 10)) acc
  else digits_of_nat fuel (Nat.div m 10) (String (ascii_of_nat (48 + Nat.modulo m 10)) acc).
Proof. reflexivity. Qed.

Lemma uvalue_digit c d v : digit_value c = Some d -> uvalue (String c EmptyString) v = Some (v * 10 + d).
Proof. intros H. cbn [uvalue]. now rewrite H. Qed.

Lemma digits_of_nat_value fuel : forall m acc, (m < fuel)%nat ->
  exists p, digits_of_nat fuel m acc = p ++ acc /\ p <> EmptyString /\
    forall v, uvalue p v = Some (v * 10 ^ Z.of_nat (String.length p) + Z.of_nat m).
Proof.
  induction fuel as [|fuel IH]; intros m acc Hm; [lia |].
  pose proof (Nat.div_mod m 10 ltac:(lia)) as Hdm.
  pose proof (Nat.mod_upper_bound m 10 ltac:(lia)) as Hmod.
  rewrite digits_of_nat_step.
  remember (Nat.modulo m 10) as d eqn:Ed. remember (Nat.div m 10) as q eqn:Eq.
  pose proof (digit_value_of_nat d Hmod) as Hdv.
  destruct (Nat.ltb_spec m 10) as [Hlt|Hge].
  - exists (String (ascii_of_nat (48 + d)) EmptyString).
    split; [reflexivity |]. split; [discriminate |].
    intros v. rewrite (uvalue_digit _ _ v Hdv).
    change (String.length (String (ascii_of_nat (48 + d)) EmptyString)) with 1%nat.
    assert (q = 0%nat) by (subst q; apply Nat.div_small; lia).
    f_equal. lia.
  - destruct (IH q (String (ascii_of_nat (48 + d)) acc) ltac:(subst q; pose proof (Nat.div_lt m 10 ltac:(lia) ltac:(lia)); lia))
      as [p [Hp [Hne Hv]]].
    exists (p ++ String (ascii_of_nat (48 + d)) EmptyString). rewrite Hp.
    split; [now rewrite sappend_assoc |].
    split; [destruct p; [contradiction | discriminate] |].
    intros v. rewrite uvalue_app, Hv, (uvalue_digit _ _ _ Hdv), StringFacts.length_app.
    change (String.length (String (ascii_of_nat (48 + d)) EmptyString)) with 1%nat.
    rewrite Nat2Z.inj_add, Z.pow_add_r by lia. f_equal.
    rewrite Hdm, Nat2Z.inj_add, Nat2Z.inj_mul, Z.pow_1_r. ring.
Qed.

Lemma string_of_Z_digits n : 0 <= n ->
  exists p, string_of_Z n = p /\ p <> EmptyString /\ uvalue p 0 = Some n.
Proof.
  intros Hn. unfold string_of_Z.
  destruct (digits_of_nat_value (S (Z.to_nat (Z.abs n))) (Z.to_nat (Z.abs n)) EmptyString
              ltac:(lia)) as [p [Hp [Hne Hv]]].
  rewrite Hp, sappend_nil_r.
  replace (Z.ltb n 0) with false by (symmetry; apply Z.ltb_ge; lia).
  exists p. split; [reflexivity |]. split; [exact Hne |].
  rewrite Hv. f_equal. lia.
Qed.

Lemma parse_digits p r :
  uvalue p 0 = Some r -> p <> EmptyString -> parse_u32 p = digits_value p 0.
Proof.
  destruct p as [|c p']; [intros _ H; contradiction |]. intros H _.
  simpl in H. destruct (digit_value c) eqn:Hd; [| discriminate].
  unfold parse_u32.
  destruct (Ascii.eqb_spec c "+") as [->|_]; [discriminate |].
  destruct (Ascii.eqb_spec c "-") as [->|_]; [discriminate | reflexivity].
Qed.

Lemma parse_u32_range s n : parse_u32 s = Some n -> 0 <= n < U32_LIMIT.
Proof.
  assert (Hd : forall x, digits_value x 0 = Some n -> 0 <= n < U32_LIMIT).
  { intros x Hx. destruct (unchecked_of_checked x 0 n ltac:(reflexivity) Hx) as [Hu Hr].
    pose proof (uvalue_mono x 0 n ltac:(lia) Hu). lia. }
  unfold parse_u32. destruct s as [|c rest]; [discriminate |].
  destruct (Ascii.eqb c "+").
  - destruct rest; [discriminate | apply Hd].
  - destruct (Ascii.eqb c "-" && String.eqb rest EmptyString); [discriminate | apply Hd].
Qed.

End PeerFacts.

(** X1: [LibwakuResponse::try_from] never produces [Undefined] and never a
    [Success] with an empty payload; a [Success] payload is the received
    text itself. *)
Theorem try_from_never_undefined : forall c text r,
  Response.try_from c text = Ok r ->
  r <> Response.Undefined /\ r <> Response.Success (Some EmptyString) /\
  (forall s, r = Response.Success (Some s) -> s = text).
Proof.
  intros c text r H.
  destruct (FfiFacts.try_from_shape c text r H) as [[_ ->]|[[_ ->]|[_ ->]]].
  - destruct (String.eqb_spec text EmptyString) as [E|E].
    + repeat split; discriminate.
    + split; [discriminate |]. split; [congruence |]. now intros s [= ->].
  - repeat split; discriminate.
  - repeat split; discriminate.
Qed.

Lemma try_from_never_undefined_witness :
  Response.try_from 0 "v" = Ok (Response.Success (Some "v")) /\
  Response.Success (Some "v") <> Response.Undefined.
Proof.
  split; [reflexivity |].
  exact (proj1 (try_from_never_undefined 0 "v" _ eq_refl)).
Defined.

(** X2: a native call completed through [handle_ffi_call!] with
    [handle_response] whose callback reports the ok status hands the decoder
    exactly the text the callback received (the empty text for a null data
    pointer); the status code the native function returned is not used. *)
Theorem ffi_ok_payload_decoded :
  forall (F : Type) (decode : string -> result F string) code rc data text,
  as_u32 rc = Response.RET_OK -> Trampoline.decode_data data = Returned text ->
  Ffi.handle_ffi_call (Response.handle_response decode) code (Some (rc, data))
    = Some (Returned (decode text)).
Proof.
  intros F decode code rc data text Hr Hd.
  rewrite (FfiFacts.handle_ffi_call_ok _ _ _ _ text Hr Hd).
  simpl. destruct (String.eqb_spec text EmptyString) as [->|_]; reflexivity.
Qed.

Lemma ffi_ok_payload_decoded_witness :
  Ffi.handle_ffi_call (Response.handle_response (fun s => (Ok s : result string string)))
    5 (Some (0, None)) = Some (Returned (Ok EmptyString)).
Proof. exact (ffi_ok_payload_decoded string _ 5 0 None EmptyString eq_refl eq_refl). Defined.

(** X3: through [handle_ffi_call!], [handle_no_response] never looks at the
    status code the native function returned, and the call returns [Ok(())]
    exactly when the callback reports the ok status with well-formed UTF-8
    data. *)
Theorem ffi_no_response_ignores_code :
  forall code1 code2 cb,
  Ffi.handle_ffi_call Response.handle_no_response code1 cb
    = Ffi.handle_ffi_call Response.handle_no_response code2 cb /\
  (forall rc data,
     Ffi.handle_ffi_call Response.handle_no_response code1 (Some (rc, data))
       = Some (Returned (Ok tt)) <->
     as_u32 rc = Response.RET_OK /\ exists text, Trampoline.decode_data data = Returned text).
Proof.
  intros code1 code2 cb. split.
  - destruct cb as [[rc data]|]; [| reflexivity].
    destruct (FfiFacts.trampoline_result_cb rc data) as [[m Hm]|[r [text [Hd [Ht _]]]]].
    + unfold Ffi.handle_ffi_call. now rewrite Hm.
    + rewrite (FfiFacts.handle_ffi_call_some _ code1 _ _ _ _ Hd Ht),
        (FfiFacts.handle_ffi_call_some _ code2 _ _ _ _ Hd Ht).
      destruct (FfiFacts.try_from_shape _ _ _ Ht) as [[_ ->]|[[_ ->]|[_ ->]]];
        try destruct (String.eqb text EmptyString); reflexivity.
  - intros rc data. split.
    + destruct (FfiFacts.trampoline_result_cb rc data) as [[m Hm]|[r [text [Hd [Ht _]]]]].
      * unfold Ffi.handle_ffi_call. rewrite Hm. discriminate.
      * rewrite (FfiFacts.handle_ffi_call_some _ _ _ _ _ _ Hd Ht).
        destruct (FfiFacts.try_from_shape _ _ _ Ht) as [[Hc ->]|[[_ ->]|[_ ->]]];
          try (intros E; discriminate E).
        intros _. eauto.
    + intros [Hr [text Hd]].
      rewrite (FfiFacts.handle_ffi_call_ok _ _ _ _ text Hr Hd).
      destruct (String.eqb text EmptyString); reflexivity.
Qed.

Lemma ffi_no_response_ignores_code_witness :
  Ffi.handle_ffi_call Response.handle_no_response 1 (Some (0, Some [x68]))
    = Some (Returned (Ok tt)).
Proof.
  apply (proj2 (proj2 (ffi_no_response_ignores_code 1 1 None) 0 (Some [x68]))).
  split; [reflexivity | eexists; reflexivity].
Defined.

(** X4: the [FromStr]-based [handle_response] of [utils.rs] errs only with
    the native failure message or, when the payload does not parse, with the
    fixed ["could not parse value"], whatever the parser's own error; for
    [String] (whose parse cannot fail, as in [waku_version]) an ok callback
    yields exactly the callback's text. *)
Theorem utils_handle_response_errors :
  (forall (F E : Type) (parse : string -> result F E) code r msg,
     Utils.handle_response parse code r = Returned (Err msg) ->
     (exists v e, r = Response.Success v /\
        parse (match v with Some s => s | None => EmptyString end) = Err e /\
        msg = "could not parse value") \/
     r = Response.Failure msg) /\
  (forall code rc data text,
     as_u32 rc = Response.RET_OK -> Trampoline.decode_data data = Returned text ->
     Ffi.handle_ffi_call (Utils.handle_response (fun s => (Ok s : result string unit)))
       code (Some (rc, data)) = Some (Returned (Ok text))).
Proof.
  split.
  - intros F E parse code r msg. destruct r as [v|v| |]; simpl; try discriminate.
    + destruct (parse _) as [x|e] eqn:Ep; [discriminate |].
      intros [= <-]. left. eauto.
    + intros [= ->]. now right.
  - intros code rc data text Hr Hd.
    rewrite (FfiFacts.handle_ffi_call_ok _ _ _ _ text Hr Hd).
    simpl. destruct (String.eqb_spec text EmptyString) as [->|_]; reflexivity.
Qed.

Lemma utils_handle_response_errors_witness :
  Ffi.handle_ffi_call (Utils.handle_response (fun s => (Ok s : result string unit)))
    3 (Some (0, Some [x68])) = Some (Returned (Ok "h")) /\
  (Utils.handle_response (fun _ => (Err tt : result nat unit)) 0
     (Response.Success (Some "x")) = Returned (Err "could not parse value") ->
   (exists v e, Response.Success (Some "x") = Response.Success v /\
      (fun _ => (Err tt : result nat unit))
        (match v with Some s => s | None => EmptyString end) = Err e /\
      "could not parse value" = "could not parse value") \/
   Response.Success (Some "x") = Response.Failure "could not parse value").
Proof.
  split.
  - exact (proj2 utils_handle_response_errors 3 0 (Some [x68]) "h" eq_refl eq_refl).
  - exact (proj1 utils_handle_response_errors nat unit _ 0 _ _).
Defined.

(** X5: a call through [handle_ffi_call!] whose callback is never invoked
    never returns (the await on [notify] does not complete); once the
    callback is invoked, the call either panics in the trampoline or hands
    its handler a response that is never [Undefined]. *)
Theorem ffi_call_completion :
  forall (C R : Type) (h : C -> Response.LibwakuResponse -> outcome R) ret,
  Ffi.handle_ffi_call h ret None = None /\
  forall rc data, exists o,
    Ffi.handle_ffi_call h ret (Some (rc, data)) = Some o /\
    ((exists m, o = Panic m) \/
     (exists r, r <> Response.Undefined /\ o = h ret r)).
Proof.
  intros C R h ret. split; [reflexivity |].
  intros rc data.
  destruct (FfiFacts.trampoline_result_cb rc data) as [[m Hm]|[r [text [Hd [Ht _]]]]].
  - exists (Panic m). unfold Ffi.handle_ffi_call. rewrite Hm. eauto.
  - exists (h ret r). rewrite (FfiFacts.handle_ffi_call_some _ _ _ _ _ _ Hd Ht).
    split; [reflexivity |]. right. exists r. split; [| reflexivity].
    exact (proj1 (try_from_never_undefined _ _ _ Ht)).
Qed.

(** X6: a fresh node context panics on every event delivered to it until an
    event callback is registered; after a sequence of registrations, every
    event the trampoline decodes (an ok payload, empty or not, an error
    status, a missing callback status) goes to the last closure registered,
    as the response [try_from] makes of it, with the node pointer
    unchanged. *)
Theorem context_event_routing : forall ptr,
  exists ctx, Context.new ptr = Returned ctx /\ Context.obj_ptr ctx = ptr /\
  (forall rc data, exists m, Context.deliver_event ctx rc data = Panic m) /\
  (forall fs f rc data text r,
     Trampoline.decode_data data = Returned text ->
     Response.try_from (as_u32 rc) text = Ok r ->
     Context.obj_ptr (Aux.register ctx (fs ++ [f])) = ptr /\
     Context.deliver_event (Aux.register ctx (fs ++ [f])) rc data = f r).
Proof.
  intros ptr. exists (Context.mk_context ptr Context.panic_callback).
  split; [reflexivity |]. split; [reflexivity |]. split.
  - apply ContextFacts.deliver_panic_callback.
  - intros fs f rc data text r Hd Ht. rewrite ContextFacts.register_last.
    split; [reflexivity |]. exact (ContextFacts.deliver_decoded _ _ _ _ _ _ Hd Ht).
Qed.

Lemma context_event_routing_witness :
  exists ctx, Context.new 7 = Returned ctx /\
    Context.deliver_event
      (Aux.register ctx ([] ++ [fun r => match r with
                                         | Response.Failure m => Panic m
                                         | _ => Returned tt
                                         end])) 1 (Some [x68])
    = Panic "waku error: h".
Proof.
  destruct (context_event_routing 7) as [ctx [Hn [_ [_ H]]]].
  exists ctx. split; [exact Hn |].
  exact (proj2 (H [] (fun r => match r with
                               | Response.Failure m => Panic m
                               | _ => Returned tt
                               end) 1 (Some [x68]) "h" (Response.Failure "waku error: h")
                  eq_refl eq_refl)).
Defined.

(** X7: [management::waku_new] completes with a context for the returned
    node pointer (which panics on events until a callback is set) when the
    callback reports the ok status, with the prefixed native message when it
    reports the error status, and panics on the missing-callback status;
    without a callback it never returns. *)
Theorem management_waku_new_classifies : forall ptr rc data text,
  Trampoline.decode_data data = Returned text ->
  Context.management_waku_new ptr None = None /\
  (as_u32 rc = Response.RET_OK ->
     exists ctx, Context.management_waku_new ptr (Some (rc, data)) = Some (Returned (Ok ctx))
       /\ Context.obj_ptr ctx = ptr
       /\ forall rc' data', exists m, Context.deliver_event ctx rc' data' = Panic m) /\
  (as_u32 rc = Response.RET_ERR ->
     Context.management_waku_new ptr (Some (rc, data))
       = Some (Returned (Err ("waku error: " ++ text)))) /\
  (as_u32 rc = Response.RET_MISSING_CALLBACK ->
     Context.management_waku_new ptr (Some (rc, data)) = Some (Panic "callback is required")).
Proof.
  intros ptr rc data text Hd. split; [reflexivity |]. split; [| split].
  - intros Hr. exists (Context.mk_context ptr Context.panic_callback).
    unfold Context.management_waku_new.
    rewrite (FfiFacts.handle_ffi_call_ok _ _ _ _ text Hr Hd).
    split; [reflexivity |]. split; [reflexivity |].
    apply ContextFacts.deliver_panic_callback.
  - intros Hr. unfold Context.management_waku_new.
    rewrite (FfiFacts.handle_ffi_call_err _ _ _ _ text Hr Hd).
    reflexivity.
  - intros Hr. unfold Context.management_waku_new.
    rewrite (FfiFacts.handle_ffi_call_missing _ _ _ _ text Hr Hd).
    reflexivity.
Qed.

Lemma management_waku_new_classifies_witness :
  Context.management_waku_new 9 (Some (1, Some [x68]))
    = Some (Returned (Err ("waku error: " ++ "h"))).
Proof.
  exact (proj1 (proj2 (proj2 (management_waku_new_classifies 9 1 (Some [x68]) "h" eq_refl)))
           eq_refl).
Defined.

(** X8: splitting the text of [join_content_topics] on [","] gives back the
    rendered topics, in order, when the list is not empty and no rendered
    topic contains a comma. *)
Theorem join_content_topics_split : forall ts,
  ts <> [] ->
  Forall (fun t => Text.has_char "," (ContentTopic.to_string t) = false) ts ->
  Text.split "," (TopicList.join_content_topics ts) = map ContentTopic.to_string ts.
Proof.
  intros ts Hne Hts. unfold TopicList.join_content_topics.
  apply TextFacts.split_join.
  - destruct ts; [contradiction | discriminate].
  - now apply Forall_map.
Qed.

Lemma join_content_topics_split_witness :
  Text.split "," (TopicList.join_content_topics
    [ContentTopic.mk_topic "toychat" "2" "huilong" ContentTopic.Proto;
     ContentTopic.mk_topic "waku" "2" "default" ContentTopic.Rfc26])
  = ["/toychat/2/huilong/proto"; "/waku/2/default/rfc26"].
Proof.
  apply join_content_topics_split; [discriminate |].
  repeat constructor.
Defined.

(** X9: decoding a listen-address list yields one address per
    comma-separated piece (trimmed, then parsed), in order, so as many
    addresses as commas plus one; otherwise it fails with
    ["could not parse Multiaddr: "] followed by the parse error of the first
    piece that does not parse. *)
Theorem multiaddr_decode_pieces :
  forall (M : Type) (trim : string -> string) (parse : string -> result M string) input,
  (forall l, Multiaddrs.decode M trim parse input = Ok l ->
     Forall2 (fun s a => parse (trim s) = Ok a) (Text.split "," input) l /\
     List.length l = S (Text.count_char "," input)) /\
  (forall e, Multiaddrs.decode M trim parse input = Err e ->
     exists pre s post err,
       Text.split "," input = (pre ++ s :: post)%list /\
       Forall (fun p => exists a, parse (trim p) = Ok a) pre /\
       parse (trim s) = Err err /\ e = "could not parse Multiaddr: " ++ err).
Proof.
  intros M trim parse input. unfold Multiaddrs.decode. split.
  - intros l.
    destruct (Multiaddrs.collect _) as [r|err] eqn:E; [| discriminate].
    intros [= <-].
    pose proof (MultiaddrFacts.collect_map_ok (fun s => parse (trim s)) _ _ E) as H.
    split; [exact H |].
    rewrite <- (Forall2_length H). apply TextFacts.split_length.
  - intros e.
    destruct (Multiaddrs.collect _) as [r|err] eqn:E; [discriminate |].
    intros [= <-].
    destruct (MultiaddrFacts.collect_map_err (fun s => parse (trim s)) _ _ E)
      as [pre [s [post [Hs [Hpre Hx]]]]].
    exists pre, s, post, err. auto.
Qed.

Lemma multiaddr_decode_pieces_witness :
  Forall2 (fun s a => Aux.nonempty_parse (id s) = Ok a) (Text.split "," "a,b") ["a"; "b"] /\
  List.length ["a"; "b"] = S (Text.count_char "," "a,b").
Proof.
  exact (proj1 (multiaddr_decode_pieces string id Aux.nonempty_parse "a,b") _ eq_refl).
Defined.

(** X10: deserializing the derived serialization of a message hash gives
    back the same bytes when it has 32 of them, and the length error
    otherwise. *)
Theorem hash_serde_roundtrip : forall h,
  Events.decode_hash (HashSerde.serialize_hash h) =
  if Nat.eqb (List.length h) 32 then Ok h
  else Err (Events.Custom "Expected an array of length 32").
Proof. apply SerdeFacts.decode_hash_serialized. Qed.

(** X12: [MessageHash::from_str] also accepts the hex text of a 32-byte hash
    with a ["0x"] prefix, in lower case, or both. *)
Theorem hash_from_str_variants : forall h,
  List.length h = 32%nat ->
  MessageHash.from_str ("0x" ++ MessageHash.to_hex_string h) = Ok h /\
  MessageHash.from_str (ContentTopic.ascii_to_lowercase (MessageHash.to_hex_string h)) = Ok h /\
  MessageHash.from_str ("0x" ++ ContentTopic.ascii_to_lowercase (MessageHash.to_hex_string h))
    = Ok h.
Proof.
  intros h Hl. unfold MessageHash.from_str. split; [| split].
  - rewrite HashFacts.strip_0x_prefix, HashFacts.from_hex_to_hex, Hl. reflexivity.
  - rewrite HexFacts.strip_0x_lower, HexFacts.from_hex_lower, Hl. reflexivity.
  - rewrite HashFacts.strip_0x_prefix, HexFacts.from_hex_lower, Hl. reflexivity.
Qed.

Lemma hash_from_str_variants_witness :
  MessageHash.from_str ("0x" ++ MessageHash.to_hex_string (Store.page_hash 3))
    = Ok (Store.page_hash 3).
Proof. exact (proj1 (hash_from_str_variants (Store.page_hash 3) eq_refl)). Defined.



(** X14: the hex text of a message hash has two characters per byte, all of
    them among [0-9] and [A-F]. *)
Theorem to_hex_string_shape : forall h,
  String.length (MessageHash.to_hex_string h) = (2 * List.length h)%nat /\
  Forall (fun c => (48 <= nat_of_ascii c <= 57)%nat \/ (65 <= nat_of_ascii c <= 70)%nat)
    (list_ascii_of_string (MessageHash.to_hex_string h)).
Proof.
  intros h. split; [apply HashFacts.to_hex_string_length |].
  pose proof (HexFacts.to_hex_string_digits h) as H.
  rewrite forallb_forall in H. apply Forall_forall. intros c Hc.
  specialize (H c Hc). unfold Aux.is_upper_hex in H.
  apply orb_true_iff in H as [H|H]; apply andb_true_iff in H as [H1 H2];
    apply Nat.leb_le in H1, H2; lia.
Qed.

(** X15: rendering an encoding with [Display] and parsing it back with
    [Encoding::from_str] gives the same encoding, when lower-casing leaves
    the rendered text unchanged and an [Unknown] value is not one of the
    three known names. *)
Theorem encoding_display_roundtrip : forall lc e,
  lc (ContentTopic.encoding_to_string e) = ContentTopic.encoding_to_string e ->
  (forall v, e = ContentTopic.Unknown v -> v <> "proto" /\ v <> "rlp" /\ v <> "rfc26") ->
  ContentTopic.encoding_from_str lc (ContentTopic.encoding_to_string e) = e.
Proof.
  intros lc e Hlc Hu. unfold ContentTopic.encoding_from_str. rewrite Hlc.
  destruct e as [| | |v]; try reflexivity.
  destruct (Hu v eq_refl) as [H1 [H2 H3]]. simpl.
  apply String.eqb_neq in H1, H2, H3. now rewrite H1, H2, H3.
Qed.

Lemma encoding_display_roundtrip_witness :
  ContentTopic.encoding_from_str ContentTopic.ascii_to_lowercase
    (ContentTopic.encoding_to_string (ContentTopic.Unknown "json"))
  = ContentTopic.Unknown "json".
Proof.
  apply encoding_display_roundtrip; [reflexivity |].
  intros v [= <-]. repeat split; discriminate.
Defined.

(** X16: every text that [WakuContentTopic::from_str] accepts is
    ["/" app "/" version "/" name "/" e] for the parsed fields and an
    encoding text [e] from which the encoding is parsed; the four parts are
    non-empty and the text holds no line feed. *)
Theorem content_topic_from_str_sound : forall lc s t,
  ContentTopic.from_str lc s = Ok t ->
  exists e,
    s = "/" ++ ContentTopic.application_name t ++ "/" ++ ContentTopic.version t ++ "/"
        ++ ContentTopic.content_topic_name t ++ "/" ++ e /\
    ContentTopic.encoding t = ContentTopic.encoding_from_str lc e /\
    ContentTopic.application_name t <> EmptyString /\ ContentTopic.version t <> EmptyString /\
    ContentTopic.content_topic_name t <> EmptyString /\ e <> EmptyString /\
    ContentTopic.no_newline s = true.
Proof.
  intros lc s t. unfold ContentTopic.from_str, ContentTopic.scan.
  destruct s as [|c0 r1]; [discriminate |].
  destruct (negb (Ascii.eqb c0 ContentTopic.slash)) eqn:Hc0; [discriminate |].
  apply negb_false_iff, Ascii.eqb_eq in Hc0. subst c0.
  destruct (ContentTopic.lazy_group _ r1 _) as [[a [v [n e]]]|] eqn:H1; [| discriminate].
  intros [= <-]. exists e.
  cbn [ContentTopic.application_name ContentTopic.version ContentTopic.content_topic_name
       ContentTopic.encoding].
  destruct (TopicParseFacts.lazy_group_sound _ _ _ _ _ H1)
    as [pa [r2 [Hr1 [Ha [Hpa [Hna H2]]]]]].
  destruct (TopicParseFacts.lazy_group_sound _ _ _ _ _ H2)
    as [pv [r3 [Hr2 [Hv [Hpv [Hnv H3]]]]]].
  destruct (TopicParseFacts.lazy_group_sound _ _ _ _ _ H3)
    as [pn [r4 [Hr3 [Hn [Hpn [Hnn H4]]]]]].
  destruct (TopicParseFacts.last_group_sound _ _ H4) as [He [Hpe Hne]].
  simpl in Ha, Hv, Hn. subst a v n e r1 r2 r3.
  split; [reflexivity |]. split; [reflexivity |].
  repeat (split; [assumption |]).
  repeat (rewrite TopicParseFacts.no_newline_app || rewrite TopicParseFacts.no_newline_cons).
  rewrite Hna, Hnv, Hnn, Hne. reflexivity.
Qed.

Lemma content_topic_from_str_sound_witness :
  exists e, "/toychat/2/huilong/proto" = "/toychat/2/huilong/" ++ e.
Proof.
  destruct (content_topic_from_str_sound ContentTopic.ascii_to_lowercase
              "/toychat/2/huilong/proto"
              (ContentTopic.mk_topic "toychat" "2" "huilong" ContentTopic.Proto) eq_refl)
    as [e [He _]].
  exists e. exact He.
Defined.

(** X18: [waku_peer_count] returns [n] for the decimal text of any [n] in
    the [u32] range (also with a leading ["+"]), the [u32] error for the
    decimal text of any other integer, only counts in the [u32] range, and
    never the [usize] error. *)
Theorem peer_count_parse :
  (forall n, 0 <= n < PeerCount.U32_LIMIT ->
     PeerCount.waku_peer_count (Ok (string_of_Z n)) = Ok n /\
     PeerCount.waku_peer_count (Ok ("+" ++ string_of_Z n)) = Ok n) /\
  (forall n, ~ (0 <= n < PeerCount.U32_LIMIT) ->
     PeerCount.waku_peer_count (Ok (string_of_Z n))
       = Err "could not convert peer count into u32") /\
  (forall s n, PeerCount.waku_peer_count (Ok s) = Ok n -> 0 <= n < PeerCount.U32_LIMIT) /\
  (forall s, PeerCount.waku_peer_count (Ok s) <> Err "could not convert peer count into usize").
Proof.
  assert (Husize : forall n, 0 <= n < PeerCount.U32_LIMIT -> Z.ltb n PeerCount.USIZE_LIMIT = true).
  { intros n Hn. apply Z.ltb_lt. unfold PeerCount.U32_LIMIT, PeerCount.USIZE_LIMIT in *. lia. }
  split; [| split; [| split]].
  - intros n Hn. destruct (PeerFacts.string_of_Z_digits n ltac:(lia)) as [p [-> [Hne Hu]]].
    assert (Hd : PeerCount.digits_value p 0 = Some n)
      by (apply PeerFacts.checked_of_unchecked; [lia | exact Hu | lia]).
    unfold PeerCount.waku_peer_count.
    rewrite (PeerFacts.parse_digits p n Hu Hne), Hd, (Husize n Hn). split; [reflexivity |].
    destruct p as [|c p']; [contradiction |].
    change ("+" ++ String c p') with (String "+" (String c p')).
    unfold PeerCount.parse_u32. simpl Ascii.eqb. cbv iota beta.
    rewrite Hd, (Husize n Hn). reflexivity.
  - intros n Hn. unfold PeerCount.waku_peer_count.
    destruct (Z.ltb_spec n 0) as [Hneg|Hpos].
    + destruct (PeerFacts.string_of_Z_digits (- n) ltac:(lia)) as [p [Hp [Hne Hu]]].
      assert (Hs : string_of_Z n = String "-" p).
      { rewrite <- Hp. unfold string_of_Z.
        replace (Z.ltb n 0) with true by (symmetry; now apply Z.ltb_lt).
        replace (Z.ltb (- n) 0) with false by (symmetry; apply Z.ltb_ge; lia).
        rewrite Z.abs_opp. reflexivity. }
      rewrite Hs. unfold PeerCount.parse_u32. simpl Ascii.eqb. cbv iota beta.
      replace (String.eqb p EmptyString) with false
        by (symmetry; now apply String.eqb_neq).
      reflexivity.
    + destruct (PeerFacts.string_of_Z_digits n Hpos) as [p [-> [Hne Hu]]].
      rewrite (PeerFacts.parse_digits p n Hu Hne).
      destruct (PeerCount.digits_value p 0) as [r|] eqn:Hd; [| reflexivity].
      destruct (PeerFacts.unchecked_of_checked p 0 r ltac:(reflexivity) Hd) as [Hu' Hr].
      rewrite Hu in Hu'. injection Hu' as <-. lia.
  - intros s n. unfold PeerCount.waku_peer_count.
    destruct (PeerCount.parse_u32 s) as [m|] eqn:Hp; [| discriminate].
    pose proof (PeerFacts.parse_u32_range _ _ Hp) as Hm.
    rewrite (Husize m Hm). intros [= <-]. exact Hm.
  - intros s. unfold PeerCount.waku_peer_count.
    destruct (PeerCount.parse_u32 s) as [m|] eqn:Hp; [| discriminate].
    rewrite (Husize m (PeerFacts.parse_u32_range _ _ Hp)). discriminate.
Qed.

Lemma peer_count_parse_witness :
  PeerCount.waku_peer_count (Ok (string_of_Z 42)) = Ok 42 /\
  PeerCount.waku_peer_count (Ok (string_of_Z (2 ^ 32)))
    = Err "could not convert peer count into u32".
Proof.
  split.
  - exact (proj1 (proj1 peer_count_parse 42 ltac:(unfold PeerCount.U32_LIMIT; lia))).
  - exact (proj1 (proj2 peer_count_parse) (2 ^ 32)
             ltac:(unfold PeerCount.U32_LIMIT; lia)).
Defined.

(** X19: rendering a log level with [Display] and parsing it back with
    [WakuLogLevel::from_str] gives the same level, for a lower-casing that
    agrees with ASCII lower-casing on the rendered names. *)
Theorem log_level_roundtrip : forall lc,
  (forall l, lc (LogLevel.to_string l)
             = ContentTopic.ascii_to_lowercase (LogLevel.to_string l)) ->
  forall l, LogLevel.from_str lc (LogLevel.to_string l) = Ok l.
Proof.
  intros lc H l. unfold LogLevel.from_str. rewrite H. destruct l; reflexivity.
Qed.

Lemma log_level_roundtrip_witness :
  LogLevel.from_str ContentTopic.ascii_to_lowercase (LogLevel.to_string LogLevel.DPanic)
    = Ok LogLevel.DPanic.
Proof. exact (log_level_roundtrip ContentTopic.ascii_to_lowercase (fun _ => eq_refl) _). Defined.

(** X20: a [waku_new] whose native creation fails returns that error but
    leaves the process-wide flag set, so every later [waku_new] fails with
    ["Waku node is already initialized"]; no handle exists on which [stop]
    could clear it. *)
Theorem failed_new_blocks_process : forall e p ops,
  Lifecycle.node_initialized p = false ->
  Forall (fun op => exists n, op = Lifecycle.New n) ops ->
  Lifecycle.proc_run (Lifecycle.New (Err e) :: ops) p =
    (Lifecycle.mk_process true (S (Lifecycle.native_created p)),
     Err e :: map (fun _ => Err "Waku node is already initialized") ops).
Proof.
  intros e p ops Hp Hops. simpl. unfold Lifecycle.waku_new at 1. rewrite Hp.
  rewrite (ProcessFacts.proc_run_news_rejected ops
    (Lifecycle.mk_process true (S (Lifecycle.native_created p))) eq_refl Hops).
  reflexivity.
Qed.

Lemma failed_new_blocks_process_witness :
  Lifecycle.proc_run [Lifecycle.New (Err "boom"); Lifecycle.New (Ok tt)]
    (Lifecycle.mk_process false 0)
  = (Lifecycle.mk_process true 1, [Err "boom"; Err "Waku node is already initialized"]).
Proof.
  exact (failed_new_blocks_process "boom" (Lifecycle.mk_process false 0)
           [Lifecycle.New (Ok tt)] eq_refl
           (Forall_cons _ (ex_intro _ (Ok tt) eq_refl) (Forall_nil _))).
Defined.


(** X21: event decoding dispatches on the ["eventType"] entry of the object,
    wherever it stands. A tag other than ["message"] and ["unrecognized"] is
    an unknown variant, and the event callback panics on its [expect] with
    that error. The tag ["unrecognized"] decodes to [Unrecognized] carrying
    the other entries, and the callback panics on it with its debug text. *)
Theorem event_tag_dispatch : forall parse lc b64 dbg vdbg s pre tag post,
  Events.lookup "eventType" pre = None -> Events.lookup "eventType" post = None ->
  parse s = Some (Events.VObject (pre ++ ("eventType", Events.VString tag) :: post)) ->
  (tag <> "message" -> tag <> "unrecognized" ->
     Events.event_from_str parse lc b64 s
       = Err (Events.Data (Events.UnknownVariant tag Events.EVENT_VARIANTS)) /\
     Events.waku_event_callback parse lc b64 dbg vdbg (Response.Success (Some s))
       = Panic ("Parsing event to succeed: "
                ++ dbg s (Events.Data (Events.UnknownVariant tag Events.EVENT_VARIANTS)))) /\
  (tag = "unrecognized" ->
     Events.event_from_str parse lc b64 s
       = Ok (Events.Unrecognized (Events.VObject (pre ++ post))) /\
     Events.waku_event_callback parse lc b64 dbg vdbg (Response.Success (Some s))
       = Panic ("Unrecognized waku event: " ++ vdbg (Events.VObject (pre ++ post)))).
Proof.
  intros parse lc b64 dbg vdbg s pre tag post Hpre Hpost Hs. split.
  - intros H1 H2.
    assert (E : Events.event_from_str parse lc b64 s
                = Err (Events.Data (Events.UnknownVariant tag Events.EVENT_VARIANTS))).
    { unfold Events.event_from_str. rewrite Hs.
      now rewrite (EventFacts.decode_unknown_tag lc b64 pre tag post Hpre H1 H2). }
    split; [exact E |]. cbn [Events.waku_event_callback]. now rewrite E.
  - intros ->.
    assert (E : Events.event_from_str parse lc b64 s
                = Ok (Events.Unrecognized (Events.VObject (pre ++ post)))).
    { unfold Events.event_from_str. rewrite Hs.
      now rewrite (EventFacts.decode_unrecognized lc b64 pre post Hpre Hpost). }
    split; [exact E |]. cbn [Events.waku_event_callback]. now rewrite E.
Qed.

Lemma event_tag_dispatch_witness :
  Events.waku_event_callback Events.flat_json ContentTopic.ascii_to_lowercase
    (fun _ => Ok []) (fun _ _ => "") (fun _ => "")
    (Response.Success (Some ("{" ++ Events.jstr "eventType" ++ ":"
                             ++ Events.jstr "topicHealthChange" ++ ","
                             ++ Events.jstr "pubsubTopic" ++ ":"
                             ++ Events.jstr "/waku/2/rs/0/0" ++ "}")))
  = Panic "Parsing event to succeed: ".
Proof.
  exact (proj2 (proj1 (event_tag_dispatch Events.flat_json ContentTopic.ascii_to_lowercase
    (fun _ => Ok []) (fun _ _ => "") (fun _ => "")
    ("{" ++ Events.jstr "eventType" ++ ":" ++ Events.jstr "topicHealthChange" ++ ","
     ++ Events.jstr "pubsubTopic" ++ ":" ++ Events.jstr "/waku/2/rs/0/0" ++ "}")
    [] "topicHealthChange" [("pubsubTopic", Events.VString "/waku/2/rs/0/0")]
    eq_refl eq_refl eq_refl) ltac:(discriminate) ltac:(discriminate))).
Defined.


